(** * SerialHeap: the serial collector's generational heap controller

    A shallow embedding of [src/hotspot/share/gc/serial/serialHeap.cpp].
    The member functions of [SerialHeap] are state transformers over a
    [World]: the C++ objects the heap allocates with [new], the fields of
    the heap singleton, its two generations, and the VM globals the file
    touches ([UseStringDeduplication], [Heap_lock], the suspendible thread
    set, the GC locker).  Every call of a collaborator is appended to a
    chronological [trace]. *)

From stdpp Require Import base option list gmap strings.
From Stdlib Require Import ZArith Lia.

Local Open Scope Z_scope.

(** ** Data model *)

(** A pointer to a C++ object; [nullptr] is address 0. *)
Abbreviation ptr := N (only parsing).
Definition nullptr : ptr := 0%N.

(** [HeapWord*]: a word-granular address in the Java heap, 0 is null. *)
Abbreviation HeapWord := Z (only parsing).
Definition null_word : HeapWord := 0.
Definition HeapWordSize : Z := 8.

Abbreviation JavaThread := nat (only parsing).
Abbreviation oop := Z (only parsing).

(** A [HeapWord*] is a 64-bit pointer to 8-byte words: counted in words,
    addresses live below [2^61] and pointer arithmetic wraps there. *)
Definition address_space_words : Z := 2 ^ 61.

(** Modelled from the spec: [MemRegion] (memory/memRegion.hpp, not under
    src/), the half-open range of [word_size] words from [start]; the
    size is a [size_t] count of words. *)
Record MemRegion := mkMemRegion { mr_start : HeapWord; mr_word_size : Z }.

(** Modelled from the spec: [MemRegion::end()], the pointer sum
    [start + word_size] in 64-bit arithmetic: it wraps around the address
    space. *)
Definition mr_end (r : MemRegion) : HeapWord :=
  (mr_start r + mr_word_size r) mod address_space_words.

(** Modelled from the spec: [MemRegion::contains(MemRegion)] (not under
    src/): the other region starts no earlier and ends no later, both
    ends as [end()] computes them. *)
Definition mr_contains (r r2 : MemRegion) : bool :=
  (mr_start r <=? mr_start r2) && (mr_end r2 <=? mr_end r).

(** A contiguous space with a bump pointer. *)
Record ContiguousSpace := mkSpace {
  sp_bottom : HeapWord;
  sp_top : HeapWord;
  sp_end : HeapWord
}.

Definition space_used (s : ContiguousSpace) : Z :=
  (sp_top s - sp_bottom s) * HeapWordSize.
Definition space_capacity (s : ContiguousSpace) : Z :=
  (sp_end s - sp_bottom s) * HeapWordSize.
Definition space_free_words (s : ContiguousSpace) : Z := sp_end s - sp_top s.
Definition space_used_region (s : ContiguousSpace) : MemRegion :=
  mkMemRegion (sp_bottom s) (sp_top s - sp_bottom s).

Record DefNewGeneration := mkDefNew {
  dn_eden : ContiguousSpace;
  dn_from : ContiguousSpace;
  dn_to : ContiguousSpace;
  dn_max_eden_size : Z;
  dn_max_survivor_size : Z;
  dn_gc_manager : ptr
}.

Record TenuredGeneration := mkTenured {
  tg_the_space : ContiguousSpace;
  tg_max_capacity : Z;
  (** regions handed over by [complete_loaded_archive_space] *)
  tg_archive_regions : list MemRegion;
  (** every reference slot of an object in the old generation *)
  tg_ref_slots : list HeapWord;
  (** the recorded old-to-young slots (the dirty part of the card table) *)
  tg_younger_refs : list HeapWord;
  tg_gc_manager : ptr
}.

(** A reference to one of the spaces of the two generations:
    [young->eden()], [young->from()], [young->to()] and the old
    generation's space. *)
Inductive SpaceRef := young_eden | young_from | young_to | old_the_space.

(** The three pool classes of [genMemoryPools.hpp]: a pool over one
    contiguous space, the survivor pool over the young generation, the
    pool over the old generation.  A pool refers to its space or
    generation, it does not own it. *)
Inductive PoolKind :=
| ContiguousSpacePool (space : SpaceRef)
| SurvivorContiguousSpacePool
| GenerationPool.

Record MemoryPool := mkPool {
  pool_kind : PoolKind;
  pool_name : string;
  pool_max_size : Z;
  pool_support_usage_threshold : bool
}.

Record GCMemoryManager := mkManager {
  mgr_name : string;
  mgr_gc_end_message : string;
  mgr_pools : list ptr
}.

(** The fields [serialHeap.hpp] adds to [GenCollectedHeap]. *)
Record SerialHeap := mkSerialHeap {
  _young_manager : ptr;
  _old_manager : ptr;
  _eden_pool : ptr;
  _survivor_pool : ptr;
  _old_pool : ptr
}.

(** [GenCollectedHeap::ScanningOption] and the code-blob closure. *)
Inductive ScanningOption := SO_None | SO_AllCodeCache | SO_ScavengeCodeCache.

Abbreviation OopIterateClosure := nat (only parsing).
Abbreviation CLDClosure := nat (only parsing).

Inductive RelocMode := FixRelocations | NoFixRelocations.

Record MarkingCodeBlobClosure := mkCodeClosure {
  cc_oop_closure : OopIterateClosure;
  cc_fix_relocations : RelocMode;
  cc_keepalive_nmethods : bool
}.

(** The roots outside the heap. *)
Record CodeBlob := mkBlob { cb_id : nat; cb_oops : list HeapWord }.

Record Roots := mkRoots {
  (** the reference slots of every thread's execution context *)
  thread_oops : list (JavaThread * HeapWord);
  (** the class-loader-data nodes, each with its strong/weak mark *)
  cld_nodes : list (nat * bool);
  (** the compiled-code objects of the code cache *)
  code_blobs : list CodeBlob
}.

(** States of the suspendible thread set. *)
Inductive GateState := Idle | SynchronizingWorker | PausedWithWorkerParked.

Record GCLockerState := mkLocker {
  jni_lock_count : Z;
  gc_in_progress : bool
}.

Inductive Event :=
| EvDoOop (cl : OopIterateClosure) (p : HeapWord)
| EvDoCld (cl : CLDClosure) (cld : nat)
| EvFixRelocations (blob : nat)
| EvLock (t : JavaThread)
| EvUnlock (t : JavaThread)
| EvOldAllocate (word_size : Z) (is_tlab : bool) (res : HeapWord)
| EvOldCompleteArchive (r : MemRegion)
| EvSynchronize
| EvDesynchronize
| EvLockCritical (t : JavaThread)
| EvUnlockCritical (t : JavaThread).

Record World := mkWorld {
  cxx_pools : gmap N MemoryPool;
  cxx_managers : gmap N GCMemoryManager;
  cxx_next : ptr;
  heap : SerialHeap;
  young_gen : DefNewGeneration;
  old_gen : TenuredGeneration;
  roots : Roots;
  UseStringDeduplication : bool;
  (** the build: [ASSERT] is defined in debug builds, not in product builds *)
  ASSERT : bool;
  current_thread : JavaThread;
  Heap_lock : option JavaThread;
  sts : GateState;
  gc_locker : GCLockerState;
  trace : list Event
}.

(** Field updates. *)
Definition with_pools (f : gmap N MemoryPool → gmap N MemoryPool) (w : World) :=
  mkWorld (f (cxx_pools w)) (cxx_managers w) (cxx_next w) (heap w) (young_gen w)
    (old_gen w) (roots w) (UseStringDeduplication w) (ASSERT w)
    (current_thread w)
    (Heap_lock w) (sts w) (gc_locker w) (trace w).
Definition with_managers (f : gmap N GCMemoryManager → gmap N GCMemoryManager)
    (w : World) :=
  mkWorld (cxx_pools w) (f (cxx_managers w)) (cxx_next w) (heap w) (young_gen w)
    (old_gen w) (roots w) (UseStringDeduplication w) (ASSERT w)
    (current_thread w)
    (Heap_lock w) (sts w) (gc_locker w) (trace w).
Definition with_next (f : ptr → ptr) (w : World) :=
  mkWorld (cxx_pools w) (cxx_managers w) (f (cxx_next w)) (heap w) (young_gen w)
    (old_gen w) (roots w) (UseStringDeduplication w) (ASSERT w)
    (current_thread w)
    (Heap_lock w) (sts w) (gc_locker w) (trace w).
Definition with_heap (f : SerialHeap → SerialHeap) (w : World) :=
  mkWorld (cxx_pools w) (cxx_managers w) (cxx_next w) (f (heap w)) (young_gen w)
    (old_gen w) (roots w) (UseStringDeduplication w) (ASSERT w)
    (current_thread w)
    (Heap_lock w) (sts w) (gc_locker w) (trace w).
Definition with_young (f : DefNewGeneration → DefNewGeneration) (w : World) :=
  mkWorld (cxx_pools w) (cxx_managers w) (cxx_next w) (heap w) (f (young_gen w))
    (old_gen w) (roots w) (UseStringDeduplication w) (ASSERT w)
    (current_thread w)
    (Heap_lock w) (sts w) (gc_locker w) (trace w).
Definition with_old (f : TenuredGeneration → TenuredGeneration) (w : World) :=
  mkWorld (cxx_pools w) (cxx_managers w) (cxx_next w) (heap w) (young_gen w)
    (f (old_gen w)) (roots w) (UseStringDeduplication w) (ASSERT w)
    (current_thread w)
    (Heap_lock w) (sts w) (gc_locker w) (trace w).
Definition with_Heap_lock (o : option JavaThread) (w : World) :=
  mkWorld (cxx_pools w) (cxx_managers w) (cxx_next w) (heap w) (young_gen w)
    (old_gen w) (roots w) (UseStringDeduplication w) (ASSERT w)
    (current_thread w)
    o (sts w) (gc_locker w) (trace w).
Definition with_sts (g : GateState) (w : World) :=
  mkWorld (cxx_pools w) (cxx_managers w) (cxx_next w) (heap w) (young_gen w)
    (old_gen w) (roots w) (UseStringDeduplication w) (ASSERT w)
    (current_thread w)
    (Heap_lock w) g (gc_locker w) (trace w).
Definition with_gc_locker (f : GCLockerState → GCLockerState) (w : World) :=
  mkWorld (cxx_pools w) (cxx_managers w) (cxx_next w) (heap w) (young_gen w)
    (old_gen w) (roots w) (UseStringDeduplication w) (ASSERT w)
    (current_thread w)
    (Heap_lock w) (sts w) (f (gc_locker w)) (trace w).
Definition emit (es : list Event) (w : World) :=
  mkWorld (cxx_pools w) (cxx_managers w) (cxx_next w) (heap w) (young_gen w)
    (old_gen w) (roots w) (UseStringDeduplication w) (ASSERT w)
    (current_thread w)
    (Heap_lock w) (sts w) (gc_locker w) (trace w ++ es).

(** ** The monad of VM operations

    A call either returns, aborts the VM with a fatal error, or cannot
    proceed until another thread acts. *)
Inductive Outcome (A : Type) :=
| Done (a : A)
| Fatal (msg : string)
| Blocked.
Arguments Done {A} a.
Arguments Fatal {A} msg.
Arguments Blocked {A}.

Definition M (A : Type) : Type := World → Outcome A * World.

Definition ret {A} (a : A) : M A := λ w, (Done a, w).
Definition bind {A B} (c : M A) (k : A → M B) : M B :=
  λ w, match c w with
       | (Done a, w') => k a w'
       | (Fatal msg, w') => (Fatal msg, w')
       | (Blocked, w') => (Blocked, w')
       end.

Global Instance M_ret : MRet M := @ret.
Global Instance M_bind : MBind M := λ A B k c, bind c k.

Definition modify (f : World → World) : M unit := λ w, (Done tt, f w).
Definition gets {A} (f : World → A) : M A := λ w, (Done (f w), w).
Definition fatal {A} (msg : string) : M A := λ w, (Fatal msg, w).
Definition blocked {A} : M A := λ w, (Blocked, w).

Definition exec {A} (c : M A) (w : World) : World := snd (c w).
Definition result {A} (c : M A) (w : World) : Outcome A := fst (c w).

(** ** Collaborators outside the file *)

(** [operator new]: a fresh, non-null address for the object. *)
Definition new_pool (p : MemoryPool) : M N :=
  a ← gets cxx_next;
  modify (with_pools (insert a p));;
  modify (with_next N.succ);;
  mret a.

Definition new_manager (g : GCMemoryManager) : M N :=
  a ← gets cxx_next;
  modify (with_managers (insert a g));;
  modify (with_next N.succ);;
  mret a.

(** Modelled from the spec: the constructor of [GCMemoryManager]
    (services/memoryManager.hpp).  A manager group has a name, a trigger
    description and an ordered set of pool references, empty until pools
    are attached. *)
Definition GCMemoryManager_ctor (name gc_end_message : string) : GCMemoryManager :=
  mkManager name gc_end_message [].

(** Modelled from the spec: [GCMemoryManager::add_pool]
    (services/memoryManager.cpp).  The pool reference is attached at the
    end of the manager's ordered pool list; the pool object itself is not
    copied. *)
Definition add_pool (m : ptr) (pool : ptr) : M unit :=
  ms ← gets cxx_managers;
  match ms !! m with
  | None => fatal "add_pool: no manager at this address"
  | Some g =>
      modify (with_managers
        (insert m (mkManager (mgr_name g) (mgr_gc_end_message g)
                             (mgr_pools g ++ [pool]))))
  end.

(** Modelled from the spec: the pool constructors of
    gc/shared/genMemoryPools.hpp.  A pool keeps its name, its maximum size
    and its usage-threshold flag as given at construction; the space is
    referenced, not owned. *)
Definition ContiguousSpacePool_ctor (space : SpaceRef) (name : string)
    (max_size : Z) (support_usage_threshold : bool) : MemoryPool :=
  mkPool (ContiguousSpacePool space) name max_size support_usage_threshold.

Definition SurvivorContiguousSpacePool_ctor (name : string) (max_size : Z)
    (support_usage_threshold : bool) : MemoryPool :=
  mkPool SurvivorContiguousSpacePool name max_size support_usage_threshold.

Definition GenerationPool_ctor (old : TenuredGeneration) (name : string)
    (support_usage_threshold : bool) : MemoryPool :=
  mkPool GenerationPool name (tg_max_capacity old) support_usage_threshold.

(** Modelled from the spec: [Generation::set_gc_manager]. *)
Definition young_set_gc_manager (m : ptr) : M unit :=
  modify (with_young (λ y,
    mkDefNew (dn_eden y) (dn_from y) (dn_to y) (dn_max_eden_size y)
             (dn_max_survivor_size y) m)).

Definition old_set_gc_manager (m : ptr) : M unit :=
  modify (with_old (λ o,
    mkTenured (tg_the_space o) (tg_max_capacity o) (tg_archive_regions o)
              (tg_ref_slots o) (tg_younger_refs o) m)).

(** Modelled from the spec: the usage queries of a pool
    (gc/shared/genMemoryPools.cpp), each computed on demand from the
    referenced space, never stored. *)
Definition deref_space (w : World) (s : SpaceRef) : ContiguousSpace :=
  match s with
  | young_eden => dn_eden (young_gen w)
  | young_from => dn_from (young_gen w)
  | young_to => dn_to (young_gen w)
  | old_the_space => tg_the_space (old_gen w)
  end.

Definition pool_space (w : World) (p : MemoryPool) : ContiguousSpace :=
  match pool_kind p with
  | ContiguousSpacePool s => deref_space w s
  | SurvivorContiguousSpacePool => deref_space w young_from
  | GenerationPool => deref_space w old_the_space
  end.

Definition used_in_bytes (w : World) (p : MemoryPool) : Z :=
  space_used (pool_space w p).
Definition committed_in_bytes (w : World) (p : MemoryPool) : Z :=
  space_capacity (pool_space w p).
Definition max_size (p : MemoryPool) : Z := pool_max_size p.
Definition is_usage_threshold_supported (p : MemoryPool) : bool :=
  pool_support_usage_threshold p.

(** What the monitoring subsystem reads through a pool pointer. *)
Record PoolReport := mkReport {
  rep_name : string;
  rep_used : Z;
  rep_committed : Z;
  rep_max : Z;
  rep_threshold : bool
}.

Definition report_pool (w : World) (a : ptr) : option PoolReport :=
  p ← cxx_pools w !! a;
  Some (mkReport (pool_name p) (used_in_bytes w p) (committed_in_bytes w p)
                 (max_size p) (is_usage_threshold_supported p)).

Definition manager_pools (w : World) (m : ptr) : list ptr :=
  match cxx_managers w !! m with
  | Some g => mgr_pools g
  | None => []
  end.

(** ** serialHeap.cpp *)

Definition set_young_manager (m : ptr) (h : SerialHeap) : SerialHeap :=
  mkSerialHeap m (_old_manager h) (_eden_pool h) (_survivor_pool h) (_old_pool h).
Definition set_old_manager (m : ptr) (h : SerialHeap) : SerialHeap :=
  mkSerialHeap (_young_manager h) m (_eden_pool h) (_survivor_pool h) (_old_pool h).
Definition set_eden_pool (p : ptr) (h : SerialHeap) : SerialHeap :=
  mkSerialHeap (_young_manager h) (_old_manager h) p (_survivor_pool h) (_old_pool h).
Definition set_survivor_pool (p : ptr) (h : SerialHeap) : SerialHeap :=
  mkSerialHeap (_young_manager h) (_old_manager h) (_eden_pool h) p (_old_pool h).
Definition set_old_pool (p : ptr) (h : SerialHeap) : SerialHeap :=
  mkSerialHeap (_young_manager h) (_old_manager h) (_eden_pool h) (_survivor_pool h) p.

(** [SerialHeap::SerialHeap()]: the three pool fields start null, the two
    managers are created at once. *)
Definition SerialHeap_ctor : M unit :=
  modify (with_heap (set_eden_pool nullptr));;
  modify (with_heap (set_survivor_pool nullptr));;
  modify (with_heap (set_old_pool nullptr));;
  ym ← new_manager (GCMemoryManager_ctor "Copy" "end of minor GC");
  modify (with_heap (set_young_manager ym));;
  om ← new_manager (GCMemoryManager_ctor "MarkSweepCompact" "end of major GC");
  modify (with_heap (set_old_manager om)).

(** [SerialHeap::initialize_serviceability()]. *)
Definition initialize_serviceability : M unit :=
  young ← gets young_gen;
  e ← new_pool (ContiguousSpacePool_ctor young_eden "Eden Space"
                  (dn_max_eden_size young) false);
  modify (with_heap (set_eden_pool e));;
  s ← new_pool (SurvivorContiguousSpacePool_ctor "Survivor Space"
                  (dn_max_survivor_size young) false);
  modify (with_heap (set_survivor_pool s));;
  old ← gets old_gen;
  o ← new_pool (GenerationPool_ctor old "Tenured Gen" true);
  modify (with_heap (set_old_pool o));;

  ym ← gets (λ w, _young_manager (heap w));
  ep ← gets (λ w, _eden_pool (heap w));
  add_pool ym ep;;
  sp ← gets (λ w, _survivor_pool (heap w));
  add_pool ym sp;;
  young_set_gc_manager ym;;

  om ← gets (λ w, _old_manager (heap w));
  ep ← gets (λ w, _eden_pool (heap w));
  add_pool om ep;;
  sp ← gets (λ w, _survivor_pool (heap w));
  add_pool om sp;;
  op ← gets (λ w, _old_pool (heap w));
  add_pool om op;;
  old_set_gc_manager om.

(** [GrowableArray::append]. *)
Definition append {A} (arr : list A) (x : A) : list A := arr ++ [x].

(** [SerialHeap::memory_managers()]. *)
Definition memory_managers : M (list ptr) :=
  h ← gets heap;
  let memory_managers := [] in
  let memory_managers := append memory_managers (_young_manager h) in
  let memory_managers := append memory_managers (_old_manager h) in
  mret memory_managers.

(** [SerialHeap::memory_pools()]. *)
Definition memory_pools : M (list ptr) :=
  h ← gets heap;
  let memory_pools := [] in
  let memory_pools := append memory_pools (_eden_pool h) in
  let memory_pools := append memory_pools (_survivor_pool h) in
  let memory_pools := append memory_pools (_old_pool h) in
  mret memory_pools.

(** *** Root scanning *)

(** Applying a code-blob closure to one compiled-code object: its embedded
    reference slots go to the wrapped oop closure, and with
    [FixRelocations] the code cache is told that the blob's relocations
    need fixing. *)
Definition do_code_blob (cl : MarkingCodeBlobClosure) (cb : CodeBlob) : list Event :=
  (EvDoOop (cc_oop_closure cl) <$> cb_oops cb) ++
  match cc_fix_relocations cl with
  | FixRelocations => [EvFixRelocations (cb_id cb)]
  | NoFixRelocations => []
  end.

Definition thread_events (strong_roots : OopIterateClosure)
    (l : list (JavaThread * HeapWord)) : list Event :=
  (λ tp : nat * Z, EvDoOop strong_roots (snd tp)) <$> l.

Definition cld_events (strong_cld_closure weak_cld_closure : CLDClosure)
    (l : list (nat * bool)) : list Event :=
  (λ c : nat * bool,
     EvDoCld (if snd c then strong_cld_closure else weak_cld_closure) (fst c)) <$> l.

Definition code_events (so : ScanningOption) (code_roots : MarkingCodeBlobClosure)
    (l : list CodeBlob) : list Event :=
  match so with
  | SO_None => []
  | SO_AllCodeCache | SO_ScavengeCodeCache =>
      l ≫= do_code_blob code_roots
  end.

(** Modelled from the spec: [GenCollectedHeap::process_roots]
    (gc/shared/genCollectedHeap.cpp), the general root enumeration: every
    thread's execution-context references, every class-loader-data node,
    and every compiled-code object's embedded reference slots.  The visits
    are synchronous: all of them are in the trace when the call returns. *)
Definition process_roots (so : ScanningOption) (strong_roots : OopIterateClosure)
    (strong_cld_closure weak_cld_closure : CLDClosure)
    (code_roots : MarkingCodeBlobClosure) : M unit :=
  r ← gets roots;
  modify (emit (thread_events strong_roots (thread_oops r)));;
  modify (emit (cld_events strong_cld_closure weak_cld_closure (cld_nodes r)));;
  modify (emit (code_events so code_roots (code_blobs r))).

(** Modelled from the spec: [TenuredGeneration::younger_refs_iterate]
    (gc/serial/tenuredGeneration.cpp).  The closure is applied to the
    recorded cross-generation reference entries of the old generation. *)
Definition younger_refs_iterate (cl : OopIterateClosure) : M unit :=
  old ← gets old_gen;
  modify (emit (EvDoOop cl <$> tg_younger_refs (old : TenuredGeneration))).

(** [SerialHeap::young_process_roots]. *)
Definition young_process_roots (root_closure old_gen_closure : OopIterateClosure)
    (cld_closure : CLDClosure) : M unit :=
  let mark_code_closure :=
    mkCodeClosure root_closure FixRelocations false (* keepalive nmethods *) in
  process_roots SO_ScavengeCodeCache root_closure
                cld_closure cld_closure mark_code_closure;;
  younger_refs_iterate old_gen_closure.

(** *** Safepoint synchronization *)

(** Modelled from the spec: [SuspendibleThreadSet::synchronize] and
    [desynchronize] (gc/shared/suspendibleThreadSet.cpp).  [synchronize]
    signals the worker and returns once it is parked; [desynchronize]
    releases it.  The spec gives the gate no other transition: a call
    outside them is an inconsistency, which is fatal. *)
Definition SuspendibleThreadSet_synchronize : M unit :=
  g ← gets sts;
  match g with
  | Idle =>
      modify (with_sts SynchronizingWorker);;
      modify (emit [EvSynchronize]);;
      modify (with_sts PausedWithWorkerParked)
  | _ => fatal "SuspendibleThreadSet::synchronize: gate is not idle"
  end.

Definition SuspendibleThreadSet_desynchronize : M unit :=
  g ← gets sts;
  match g with
  | PausedWithWorkerParked =>
      modify (emit [EvDesynchronize]);;
      modify (with_sts Idle)
  | _ => fatal "SuspendibleThreadSet::desynchronize: worker is not parked"
  end.

(** [SerialHeap::safepoint_synchronize_begin]. *)
Definition safepoint_synchronize_begin : M unit :=
  f ← gets UseStringDeduplication;
  if f : bool then SuspendibleThreadSet_synchronize else mret tt.

(** [SerialHeap::safepoint_synchronize_end]. *)
Definition safepoint_synchronize_end : M unit :=
  f ← gets UseStringDeduplication;
  if f : bool then SuspendibleThreadSet_desynchronize else mret tt.

(** *** Archive space *)

(** [MutexLocker ml(Heap_lock)]: the constructor takes the lock for the
    current thread, the destructor at the end of the scope gives it back.
    The lock is exclusive and not reentrant: while any thread owns it the
    constructor does not return. *)
Definition Mutex_lock : M unit :=
  l ← gets Heap_lock;
  match l with
  | Some _ => blocked
  | None =>
      t ← gets current_thread;
      modify (with_Heap_lock (Some t));;
      modify (emit [EvLock t])
  end.

Definition Mutex_unlock : M unit :=
  t ← gets current_thread;
  modify (with_Heap_lock None);;
  modify (emit [EvUnlock t]).

Definition MutexLocker {A} (body : M A) : M A :=
  Mutex_lock;;
  r ← body;
  Mutex_unlock;;
  mret r.

Definition set_top (new_top : HeapWord) (o : TenuredGeneration) : TenuredGeneration :=
  mkTenured (mkSpace (sp_bottom (tg_the_space o)) new_top (sp_end (tg_the_space o)))
            (tg_max_capacity o) (tg_archive_regions o) (tg_ref_slots o)
            (tg_younger_refs o) (tg_gc_manager o).

(** Modelled from the spec: [TenuredGeneration::allocate]
    (gc/serial/tenuredGeneration.inline.hpp).  The old generation's free
    space is the one contiguous run between its allocation pointer and the
    end of its committed space; a request that fits is carved from its
    start, any other fails with the null address. *)
Definition TenuredGeneration_allocate (word_size : Z) (is_tlab : bool) : M Z :=
  old ← gets old_gen;
  let obj := sp_top (tg_the_space (old : TenuredGeneration)) in
  if word_size <=? space_free_words (tg_the_space old) then
    modify (with_old (set_top (obj + word_size)));;
    modify (emit [EvOldAllocate word_size is_tlab obj]);;
    mret obj
  else
    modify (emit [EvOldAllocate word_size is_tlab null_word]);;
    mret null_word.

(** [SerialHeap::allocate_loaded_archive_space]. *)
Definition allocate_loaded_archive_space (word_size : Z) : M Z :=
  MutexLocker (TenuredGeneration_allocate word_size false (* is_tlab *)).

(** Modelled from the spec: the [assert] macro (utilities/debug.hpp, not
    under src/).  Where it is compiled in, a violated assertion is a fatal
    error: the VM ends where it stands.  HotSpot compiles it in only when
    [ASSERT] is defined; in a product build the macro expands to nothing
    and the condition is not looked at. *)
Definition assert (p : bool) (msg : string) : M unit :=
  a ← gets ASSERT;
  if a : bool then (if p then mret tt else fatal msg) else mret tt.

(** Modelled from the spec: [Generation::used_region]. *)
Definition used_region (o : TenuredGeneration) : MemRegion :=
  space_used_region (tg_the_space o).

(** Modelled from the spec: [TenuredGeneration::complete_loaded_archive_space]
    (gc/serial/tenuredGeneration.cpp).  The old generation's allocator
    records the region as permanently occupied. *)
Definition TenuredGeneration_complete_loaded_archive_space
    (archive_space : MemRegion) : M unit :=
  modify (with_old (λ o,
    mkTenured (tg_the_space o) (tg_max_capacity o)
              (tg_archive_regions o ++ [archive_space])
              (tg_ref_slots o) (tg_younger_refs o) (tg_gc_manager o)));;
  modify (emit [EvOldCompleteArchive archive_space]).

(** [SerialHeap::complete_loaded_archive_space]. *)
Definition complete_loaded_archive_space (archive_space : MemRegion) : M unit :=
  old ← gets old_gen;
  assert (mr_contains (used_region old) archive_space)
         "Archive space not contained in old gen";;
  TenuredGeneration_complete_loaded_archive_space archive_space.

(** *** Pinning *)

(** Modelled from the spec: [GCLocker::lock_critical] and
    [GCLocker::unlock_critical] (gc/shared/gcLocker.inline.hpp): one
    global critical-section counter; a request made while a collection is
    in progress does not return until the collection is over. *)
Definition GCLocker_lock_critical (thread : JavaThread) : M unit :=
  l ← gets gc_locker;
  if gc_in_progress (l : GCLockerState) then blocked
  else
    modify (with_gc_locker (λ l, mkLocker (jni_lock_count l + 1) (gc_in_progress l)));;
    modify (emit [EvLockCritical thread]).

Definition GCLocker_unlock_critical (thread : JavaThread) : M unit :=
  modify (with_gc_locker (λ l, mkLocker (jni_lock_count l - 1) (gc_in_progress l)));;
  modify (emit [EvUnlockCritical thread]).

(** Modelled from the spec: the start and the end of a collection pause,
    which live in the collection driver (gc/shared/genCollectedHeap.cpp).
    While the critical-section counter is positive the pause does not
    start. *)
Definition collection_pause_begin : M unit :=
  l ← gets gc_locker;
  if 0 <? jni_lock_count (l : GCLockerState) then blocked
  else modify (with_gc_locker (λ l, mkLocker (jni_lock_count l) true)).

Definition collection_pause_end : M unit :=
  modify (with_gc_locker (λ l, mkLocker (jni_lock_count l) false)).

(** [SerialHeap::pin_object]. *)
Definition pin_object (thread : JavaThread) (obj : oop) : M unit :=
  GCLocker_lock_critical thread.

(** [SerialHeap::unpin_object]. *)
Definition unpin_object (thread : JavaThread) (obj : oop) : M unit :=
  GCLocker_unlock_critical thread.

(** ** Calls made on the heap after it is set up *)

Inductive Call :=
| Call_memory_managers
| Call_memory_pools
| Call_young_process_roots (root_closure old_gen_closure : OopIterateClosure)
                           (cld_closure : CLDClosure)
| Call_safepoint_synchronize_begin
| Call_safepoint_synchronize_end
| Call_allocate_loaded_archive_space (word_size : Z)
| Call_complete_loaded_archive_space (archive_space : MemRegion)
| Call_pin_object (thread : JavaThread) (obj : oop)
| Call_unpin_object (thread : JavaThread) (obj : oop)
(** not a member function: the mutator and the collectors, which live
    outside this file, change the generations in any way they like *)
| Env_generations_change (young : DefNewGeneration) (old : TenuredGeneration)
(** not member functions either: the collection driver starts and ends a
    collection pause *)
| Env_collection_pause_begin
| Env_collection_pause_end.

Definition run_call (c : Call) (w : World) : World :=
  match c with
  | Call_memory_managers => exec memory_managers w
  | Call_memory_pools => exec memory_pools w
  | Call_young_process_roots r o c => exec (young_process_roots r o c) w
  | Call_safepoint_synchronize_begin => exec safepoint_synchronize_begin w
  | Call_safepoint_synchronize_end => exec safepoint_synchronize_end w
  | Call_allocate_loaded_archive_space n => exec (allocate_loaded_archive_space n) w
  | Call_complete_loaded_archive_space r => exec (complete_loaded_archive_space r) w
  | Call_pin_object t o => exec (pin_object t o) w
  | Call_unpin_object t o => exec (unpin_object t o) w
  | Env_generations_change y o => with_young (λ _, y) (with_old (λ _, o) w)
  | Env_collection_pause_begin => exec collection_pause_begin w
  | Env_collection_pause_end => exec collection_pause_end w
  end.

Fixpoint run_calls (cs : list Call) (w : World) : World :=
  match cs with
  | [] => w
  | c :: cs' => run_calls cs' (run_call c w)
  end.

(** The name and trigger description the monitoring side reads. *)
Definition manager_info (w : World) (m : ptr) : option (string * string) :=
  g ← cxx_managers w !! m;
  Some (mgr_name g, mgr_gc_end_message g).

(** The state the constructor leaves for the deferred initialization. *)
Definition managers_constructed (w : World) : Prop :=
  manager_info w (_young_manager (heap w)) = Some ("Copy", "end of minor GC") ∧
  manager_info w (_old_manager (heap w)) = Some ("MarkSweepCompact", "end of major GC") ∧
  manager_pools w (_young_manager (heap w)) = [] ∧
  manager_pools w (_old_manager (heap w)) = [] ∧
  _young_manager (heap w) ≠ _old_manager (heap w).

(** Kind, name and usage-threshold flag of the pool at an address. *)
Definition pool_facts (w : World) (a : ptr) : option (PoolKind * string * bool) :=
  p ← cxx_pools w !! a;
  Some (pool_kind p, pool_name p, is_usage_threshold_supported p).

(** The wiring the deferred initialization leaves. *)
Definition serviceability_wired (w : World) : Prop :=
  let h := heap w in
  manager_pools w (_young_manager h) = [_eden_pool h; _survivor_pool h] ∧
  manager_pools w (_old_manager h) = [_eden_pool h; _survivor_pool h; _old_pool h] ∧
  NoDup [_eden_pool h; _survivor_pool h; _old_pool h] ∧
  _young_manager h ≠ _old_manager h ∧
  manager_info w (_young_manager h) = Some ("Copy", "end of minor GC") ∧
  manager_info w (_old_manager h) = Some ("MarkSweepCompact", "end of major GC") ∧
  pool_facts w (_eden_pool h) =
    Some (ContiguousSpacePool young_eden, "Eden Space", false) ∧
  pool_facts w (_survivor_pool h) =
    Some (SurvivorContiguousSpacePool, "Survivor Space", false) ∧
  pool_facts w (_old_pool h) = Some (GenerationPool, "Tenured Gen", true).

(** The heap from its construction on: the constructor, any calls, the
    deferred initialization, any calls. *)
Definition constructed (w : World) (cs : list Call) : World :=
  run_calls cs (exec SerialHeap_ctor w).

Definition initialized (w : World) (cs1 cs2 : list Call) : World :=
  run_calls cs2 (exec initialize_serviceability (constructed w cs1)).

(** What the general root enumeration of [young_process_roots] visits. *)
Definition general_root_events (w : World) (root_closure : OopIterateClosure)
    (cld_closure : CLDClosure) : list Event :=
  thread_events root_closure (thread_oops (roots w)) ++
  cld_events cld_closure cld_closure (cld_nodes (roots w)) ++
  code_events SO_ScavengeCodeCache (mkCodeClosure root_closure FixRelocations false)
              (code_blobs (roots w)).

(** What the old-generation visitor is applied to. *)
Definition old_to_young_events (w : World) (old_gen_closure : OopIterateClosure)
    : list Event :=
  EvDoOop old_gen_closure <$> tg_younger_refs (old_gen w).

(** A small world to run the code on: an eden of 100 words with 30 used,
    survivor spaces of 50 words, an old generation of 100 words with 40
    used and 60 free, three reference slots in the old generation of which
    one is recorded as pointing into the young generation, two thread
    roots, two class-loader-data nodes, one compiled-code object. *)
Definition example_world : World :=
  mkWorld ∅ ∅ 1%N (mkSerialHeap nullptr nullptr nullptr nullptr nullptr)
    (mkDefNew (mkSpace 100 130 200) (mkSpace 200 210 250) (mkSpace 250 250 300)
              800 400 nullptr)
    (mkTenured (mkSpace 1000 1040 1100) 16000 [] [1001; 1010; 1020] [1010] nullptr)
    (mkRoots [(1%nat, 5000); (2%nat, 5008)] [(7%nat, true); (8%nat, false)]
             [mkBlob 3 [6000; 6008]])
    true true 1%nat None Idle (mkLocker 0 false) [].

(** The string-deduplication worker switched off. *)
Definition example_world_no_dedup : World :=
  mkWorld (cxx_pools example_world) (cxx_managers example_world)
    (cxx_next example_world) (heap example_world) (young_gen example_world)
    (old_gen example_world) (roots example_world) false (ASSERT example_world)
    (current_thread example_world) (Heap_lock example_world) (sts example_world)
    (gc_locker example_world) (trace example_world).

(** The same world in a product build. *)
Definition example_world_product : World :=
  mkWorld (cxx_pools example_world) (cxx_managers example_world)
    (cxx_next example_world) (heap example_world) (young_gen example_world)
    (old_gen example_world) (roots example_world)
    (UseStringDeduplication example_world) false
    (current_thread example_world) (Heap_lock example_world) (sts example_world)
    (gc_locker example_world) (trace example_world).

(** A region lies fully within the old generation's used extent: every
    word of [start, start + word_size) is in [bottom, top). *)
Definition in_used_extent (w : World) (r : MemRegion) : Prop :=
  sp_bottom (tg_the_space (old_gen w)) ≤ mr_start r ∧
  mr_start r + mr_word_size r ≤ sp_top (tg_the_space (old_gen w)).

(** A region a caller can form without wrapping around the address
    space. *)
Definition region_fits (r : MemRegion) : Prop :=
  0 ≤ mr_start r ∧ 0 ≤ mr_word_size r ∧
  mr_start r + mr_word_size r < address_space_words.

(** The old generation's committed space ends inside the address space. *)
Definition old_space_addressable (w : World) : Prop :=
  sp_end (tg_the_space (old_gen w)) < address_space_words.

(** The old generation's space does not start at the null address and its
    allocation pointer is inside it. *)
Definition old_space_ok (w : World) : Prop :=
  0 < sp_bottom (tg_the_space (old_gen w)) ∧
  sp_bottom (tg_the_space (old_gen w)) ≤ sp_top (tg_the_space (old_gen w)) ∧
  sp_top (tg_the_space (old_gen w)) ≤ sp_end (tg_the_space (old_gen w)).

(** No collection pause while a critical section is open. *)
Definition pause_excludes_critical (w : World) : Prop :=
  gc_in_progress (gc_locker w) = true → jni_lock_count (gc_locker w) ≤ 0.

(** ** Further properties of the member functions *)

(** A call of one of the member functions that run no caller-supplied
    visitor, with a request size a [size_t] can hold.  The root scan is
    left out: its visitors copy and promote objects, which this file does
    not see; so are the steps of the mutator and of the collectors. *)
Definition member_call (c : Call) : Prop :=
  match c with
  | Call_memory_managers | Call_memory_pools
  | Call_safepoint_synchronize_begin | Call_safepoint_synchronize_end
  | Call_complete_loaded_archive_space _
  | Call_pin_object _ _ | Call_unpin_object _ _ => True
  | Call_allocate_loaded_archive_space word_size => 0 ≤ word_size
  | Call_young_process_roots _ _ _
  | Env_generations_change _ _
  | Env_collection_pause_begin | Env_collection_pause_end => False
  end.

Definition safepoint_call (c : Call) : Prop :=
  c = Call_safepoint_synchronize_begin ∨ c = Call_safepoint_synchronize_end.

(** ** Proofs *)

Create HintDb vm_ops discriminated.
#[local] Hint Unfold mbind mret M_bind M_ret bind ret modify gets fatal blocked
  exec result : vm_ops.

(** Run the monad as far as the world allows. *)
Ltac step_monad :=
  repeat (autounfold with vm_ops in *; cbn -[Z.add Z.sub Z.leb Z.ltb] in *).

(** *** The code on the example world *)

Example example_wiring :
  let w := initialized example_world [] [] in
  heap w = mkSerialHeap 1 2 3 4 5 ∧
  manager_pools w 1%N = [3; 4]%N ∧
  manager_pools w 2%N = [3; 4; 5]%N ∧
  result memory_managers w = Done [1; 2]%N ∧
  result memory_pools w = Done [3; 4; 5]%N.
Proof. by vm_compute. Qed.

Example example_reports :
  report_pool (initialized example_world [] []) <$> [3; 4; 5]%N =
  [Some (mkReport "Eden Space" 240 800 800 false);
   Some (mkReport "Survivor Space" 80 400 400 false);
   Some (mkReport "Tenured Gen" 320 800 16000 true)].
Proof. by vm_compute. Qed.

Example example_archive_allocation :
  allocate_loaded_archive_space 60 example_world =
    (Done 1040,
     emit [EvLock 1; EvOldAllocate 60 false 1040; EvUnlock 1]
          (with_old (set_top 1100) example_world)) ∧
  result (allocate_loaded_archive_space 61) example_world = Done null_word.
Proof. by vm_compute. Qed.

Example example_unrecorded_slot_not_visited :
  1001 ∈ tg_ref_slots (old_gen example_world) ∧
  EvDoOop 20 1001 ∉ trace (exec (young_process_roots 10 20 30) example_world).
Proof.
  split; [by left|].
  replace (trace (exec (young_process_roots 10 20 30) example_world))
    with [EvDoOop 10 5000; EvDoOop 10 5008; EvDoCld 30 7; EvDoCld 30 8;
          EvDoOop 10 6000; EvDoOop 10 6008; EvFixRelocations 3; EvDoOop 20 1010]
    by reflexivity.
  rewrite !not_elem_of_cons. repeat split; try discriminate.
  apply not_elem_of_nil.
Qed.

(** None of the calls touches the C++ objects of the reporting bridge. *)
Lemma run_call_frame c w :
  cxx_pools (run_call c w) = cxx_pools w ∧
  cxx_managers (run_call c w) = cxx_managers w ∧
  heap (run_call c w) = heap w.
Proof.
  destruct c; unfold run_call.
  - done.
  - done.
  - done.
  - unfold safepoint_synchronize_begin, SuspendibleThreadSet_synchronize.
    step_monad. destruct (UseStringDeduplication w); [destruct (sts w)|]; done.
  - unfold safepoint_synchronize_end, SuspendibleThreadSet_desynchronize.
    step_monad. destruct (UseStringDeduplication w); [destruct (sts w)|]; done.
  - unfold allocate_loaded_archive_space, MutexLocker, Mutex_lock, Mutex_unlock,
      TenuredGeneration_allocate.
    step_monad. destruct (Heap_lock w); [done|]. step_monad.
    destruct (_ <=? _); done.
  - unfold complete_loaded_archive_space, assert,
      TenuredGeneration_complete_loaded_archive_space.
    step_monad. destruct (ASSERT w); [destruct (mr_contains _ _)|]; done.
  - unfold pin_object, GCLocker_lock_critical. step_monad.
    destruct (gc_in_progress _); done.
  - done.
  - done.
  - unfold collection_pause_begin. step_monad. destruct (0 <? _); done.
  - done.
Qed.

Lemma run_calls_frame cs : ∀ w,
  cxx_pools (run_calls cs w) = cxx_pools w ∧
  cxx_managers (run_calls cs w) = cxx_managers w ∧
  heap (run_calls cs w) = heap w.
Proof.
  induction cs as [|c cs IH]; intros w; [done|].
  cbn [run_calls]. destruct (IH (run_call c w)) as (-> & -> & ->).
  apply run_call_frame.
Qed.

Lemma manager_pools_lookup w m g :
  cxx_managers w !! m = Some g → manager_pools w m = mgr_pools g.
Proof. unfold manager_pools. by intros ->. Qed.

Lemma add_pool_run w m pool g :
  cxx_managers w !! m = Some g →
  add_pool m pool w =
    (Done tt, with_managers (insert m (mkManager (mgr_name g) (mgr_gc_end_message g)
                                                 (mgr_pools g ++ [pool]))) w).
Proof. intros H. unfold add_pool. step_monad. by rewrite H. Qed.

Lemma SerialHeap_ctor_constructs w :
  result SerialHeap_ctor w = Done tt ∧ managers_constructed (exec SerialHeap_ctor w).
Proof.
  split; [done|].
  unfold managers_constructed, manager_info, manager_pools, SerialHeap_ctor,
    new_manager.
  step_monad.
  assert (Hne : N.succ (cxx_next w) ≠ cxx_next w) by lia.
  rewrite lookup_insert_eq, lookup_insert_ne, lookup_insert_eq by done.
  repeat split; [done..|]. lia.
Qed.

Lemma initialize_serviceability_wires w :
  managers_constructed w →
  result initialize_serviceability w = Done tt ∧
  serviceability_wired (exec initialize_serviceability w).
Proof.
  intros (Hy & Ho & Hpy & Hpo & Hne).
  unfold manager_info, manager_pools in *.
  destruct (cxx_managers w !! _young_manager (heap w)) as [gy|] eqn:Ey; [|done].
  destruct (cxx_managers w !! _old_manager (heap w)) as [go|] eqn:Eo; [|done].
  cbn in Hy, Ho.
  unfold serviceability_wired, manager_info, manager_pools, pool_facts,
    initialize_serviceability, new_pool, add_pool,
    young_set_gc_manager, old_set_gc_manager.
  step_monad.
  repeat (first [ rewrite Ey | rewrite Eo | rewrite lookup_insert_eq
                | rewrite lookup_insert_ne by done ]; step_monad).
  rewrite Hpy, Hpo.
  assert (N.succ (cxx_next w) ≠ cxx_next w) by lia.
  assert (N.succ (N.succ (cxx_next w)) ≠ cxx_next w) by lia.
  assert (N.succ (N.succ (cxx_next w)) ≠ N.succ (cxx_next w)) by lia.
  repeat (first [ rewrite lookup_insert_eq | rewrite lookup_insert_ne by done ]).
  repeat split; try done.
  rewrite !NoDup_cons, !not_elem_of_cons.
  repeat split; try lia; try apply not_elem_of_nil. apply NoDup_nil_2.
Qed.

Lemma managers_constructed_frame w w' :
  cxx_managers w' = cxx_managers w → heap w' = heap w →
  managers_constructed w → managers_constructed w'.
Proof.
  unfold managers_constructed, manager_info, manager_pools.
  by intros -> ->.
Qed.

Lemma serviceability_wired_frame w w' :
  cxx_pools w' = cxx_pools w → cxx_managers w' = cxx_managers w →
  heap w' = heap w →
  serviceability_wired w → serviceability_wired w'.
Proof.
  unfold serviceability_wired, manager_info, manager_pools, pool_facts.
  by intros -> -> ->.
Qed.

Lemma constructed_managers w cs : managers_constructed (constructed w cs).
Proof.
  unfold constructed.
  destruct (run_calls_frame cs (exec SerialHeap_ctor w)) as (_ & Hm & Hh).
  eapply managers_constructed_frame; [done..|].
  apply SerialHeap_ctor_constructs.
Qed.

Lemma initialized_wired w cs1 cs2 : serviceability_wired (initialized w cs1 cs2).
Proof.
  unfold initialized.
  destruct (run_calls_frame cs2
              (exec initialize_serviceability (constructed w cs1))) as (Hp & Hm & Hh).
  eapply serviceability_wired_frame; [done..|].
  apply initialize_serviceability_wires, constructed_managers.
Qed.

(** ** The reporting bridge *)

(** C1: once [initialize_serviceability] has run on the constructed heap,
    the young manager owns exactly the pools eden, survivor in that order,
    the old manager owns exactly eden, survivor, old in that order,
    [memory_managers()] returns the two managers young, old and
    [memory_pools()] returns the three pools eden, survivor, old.  The
    three pools and the two managers are distinct objects of the named
    kinds, and the wiring stays as it is under every later call. *)
Theorem initialize_serviceability_wiring (w : World) (cs1 cs2 : list Call) :
  let w' := initialized w cs1 cs2 in
  let h := heap w' in
  result initialize_serviceability (constructed w cs1) = Done tt ∧
  manager_pools w' (_young_manager h) = [_eden_pool h; _survivor_pool h] ∧
  manager_pools w' (_old_manager h) =
    [_eden_pool h; _survivor_pool h; _old_pool h] ∧
  result memory_managers w' = Done [_young_manager h; _old_manager h] ∧
  result memory_pools w' = Done [_eden_pool h; _survivor_pool h; _old_pool h] ∧
  NoDup [_eden_pool h; _survivor_pool h; _old_pool h] ∧
  NoDup [_young_manager h; _old_manager h] ∧
  pool_kind <$> cxx_pools w' !! _eden_pool h =
    Some (ContiguousSpacePool young_eden) ∧
  pool_kind <$> cxx_pools w' !! _survivor_pool h = Some SurvivorContiguousSpacePool ∧
  pool_kind <$> cxx_pools w' !! _old_pool h = Some GenerationPool ∧
  mgr_name <$> cxx_managers w' !! _young_manager h = Some "Copy" ∧
  mgr_name <$> cxx_managers w' !! _old_manager h = Some "MarkSweepCompact".
Proof.
  intros w' h.
  destruct (initialized_wired w cs1 cs2)
    as (Hy & Ho & Hnd & Hne & Hiy & Hio & He & Hs & Hop).
  fold w' in Hy, Ho, Hnd, Hne, Hiy, Hio, He, Hs, Hop.
  fold h in Hy, Ho, Hnd, Hne, Hiy, Hio, He, Hs, Hop.
  unfold pool_facts in He, Hs, Hop. unfold manager_info in Hiy, Hio.
  split; [apply initialize_serviceability_wires, constructed_managers|].
  do 5 (split; [done|]).
  split.
  { rewrite !NoDup_cons, !not_elem_of_cons.
    repeat split; try done; try apply not_elem_of_nil. apply NoDup_nil_2. }
  destruct (cxx_pools w' !! _eden_pool h); [|done].
  destruct (cxx_pools w' !! _survivor_pool h); [|done].
  destruct (cxx_pools w' !! _old_pool h); [|done].
  destruct (cxx_managers w' !! _young_manager h); [|done].
  destruct (cxx_managers w' !! _old_manager h); [|done].
  cbn in *. repeat split; congruence.
Qed.

(** C6: a pool's usage-threshold flag is the one its constructor was
    given, and from the deferred initialization on it is false for the
    eden pool, false for the survivor pool and true for the tenured pool,
    whatever is called afterwards. *)
Theorem usage_threshold_fixed_at_construction (w : World) (cs1 cs2 : list Call) :
  let w' := initialized w cs1 cs2 in
  let h := heap w' in
  (∀ space name max b,
     is_usage_threshold_supported (ContiguousSpacePool_ctor space name max b) = b ∧
     is_usage_threshold_supported (SurvivorContiguousSpacePool_ctor name max b) = b) ∧
  (∀ old name b,
     is_usage_threshold_supported (GenerationPool_ctor old name b) = b) ∧
  is_usage_threshold_supported <$> cxx_pools w' !! _eden_pool h = Some false ∧
  is_usage_threshold_supported <$> cxx_pools w' !! _survivor_pool h = Some false ∧
  is_usage_threshold_supported <$> cxx_pools w' !! _old_pool h = Some true ∧
  (λ a, rep_threshold <$> report_pool w' a) <$> manager_pools w' (_old_manager h) =
    [Some false; Some false; Some true].
Proof.
  intros w' h.
  destruct (initialized_wired w cs1 cs2)
    as (Hy & Ho & Hnd & Hne & Hiy & Hio & He & Hs & Hop).
  fold w' in Hy, Ho, Hnd, Hne, Hiy, Hio, He, Hs, Hop.
  fold h in Hy, Ho, Hnd, Hne, Hiy, Hio, He, Hs, Hop.
  split; [done|]. split; [done|].
  rewrite Ho. unfold pool_facts, report_pool in *. cbn.
  destruct (cxx_pools w' !! _eden_pool h); [|done].
  destruct (cxx_pools w' !! _survivor_pool h); [|done].
  destruct (cxx_pools w' !! _old_pool h); [|done].
  cbn in *. repeat split; congruence.
Qed.

(** C8: from the constructor on, before and after the deferred
    initialization and whatever is called in between, the young manager is
    named Copy with trigger description end of minor GC, and the old
    manager is named MarkSweepCompact with trigger description end of
    major GC. *)
Theorem manager_names_fixed (w : World) (cs1 cs2 : list Call) :
  let w1 := constructed w cs1 in
  let w2 := initialized w cs1 cs2 in
  manager_info w1 (_young_manager (heap w1)) = Some ("Copy", "end of minor GC") ∧
  manager_info w1 (_old_manager (heap w1)) =
    Some ("MarkSweepCompact", "end of major GC") ∧
  manager_info w2 (_young_manager (heap w2)) = Some ("Copy", "end of minor GC") ∧
  manager_info w2 (_old_manager (heap w2)) =
    Some ("MarkSweepCompact", "end of major GC").
Proof.
  intros w1 w2.
  destruct (constructed_managers w cs1) as (H1 & H2 & _).
  destruct (initialized_wired w cs1 cs2) as (_ & _ & _ & _ & H3 & H4 & _).
  done.
Qed.

(** C10: the eden and survivor pools attached to the young manager are the
    very objects attached to the old manager: the same two addresses, in
    the same places.  At every later observation point, whatever the
    mutator and the collectors have done to the spaces, what is read
    through the young manager's two pools is what is read through the old
    manager's first two. *)
Theorem young_pools_shared (w : World) (cs1 cs2 : list Call) :
  let w' := initialized w cs1 cs2 in
  let h := heap w' in
  manager_pools w' (_young_manager h) = take 2 (manager_pools w' (_old_manager h)) ∧
  report_pool w' <$> manager_pools w' (_young_manager h) =
    take 2 (report_pool w' <$> manager_pools w' (_old_manager h)) ∧
  (λ a, rep_name <$> report_pool w' a) <$> manager_pools w' (_young_manager h) =
    [Some "Eden Space"; Some "Survivor Space"] ∧
  (λ a, rep_used <$> report_pool w' a) <$> manager_pools w' (_young_manager h) =
    [Some (space_used (dn_eden (young_gen w')));
     Some (space_used (dn_from (young_gen w')))] ∧
  (λ a, rep_committed <$> report_pool w' a) <$> manager_pools w' (_young_manager h) =
    [Some (space_capacity (dn_eden (young_gen w')));
     Some (space_capacity (dn_from (young_gen w')))].
Proof.
  intros w' h.
  destruct (initialized_wired w cs1 cs2)
    as (Hy & Ho & Hnd & Hne & Hiy & Hio & He & Hs & Hop).
  fold w' in Hy, Ho, Hnd, Hne, Hiy, Hio, He, Hs, Hop.
  fold h in Hy, Ho, Hnd, Hne, Hiy, Hio, He, Hs, Hop.
  rewrite Hy, Ho. split; [done|]. split; [done|].
  unfold pool_facts, report_pool, used_in_bytes, committed_in_bytes, pool_space in *.
  cbn.
  destruct (cxx_pools w' !! _eden_pool h) as [pe|]; [|done].
  destruct (cxx_pools w' !! _survivor_pool h) as [ps|]; [|done].
  cbn in *.
  assert (pool_kind pe = ContiguousSpacePool young_eden) as -> by congruence.
  assert (pool_kind ps = SurvivorContiguousSpacePool) as -> by congruence.
  repeat split; congruence.
Qed.

(** ** Root scanning for a minor collection *)

Lemma process_roots_trace w so strong_roots strong_cld weak_cld code_roots :
  process_roots so strong_roots strong_cld weak_cld code_roots w =
  (Done tt,
   emit (thread_events strong_roots (thread_oops (roots w)) ++
         cld_events strong_cld weak_cld (cld_nodes (roots w)) ++
         code_events so code_roots (code_blobs (roots w))) w).
Proof.
  unfold process_roots, emit. step_monad. by rewrite <- !app_assoc.
Qed.

Lemma general_root_events_closure w root_closure cld_closure cl p :
  EvDoOop cl p ∈ general_root_events w root_closure cld_closure →
  cl = root_closure.
Proof.
  unfold general_root_events, thread_events, cld_events, code_events.
  rewrite !elem_of_app, !list_elem_of_fmap, list_elem_of_bind.
  intros [(tp & Heq & _) | [(c & Heq & _) | (cb & Hin & _)]].
  - congruence.
  - discriminate.
  - unfold do_code_blob in Hin. cbn in Hin.
    rewrite elem_of_app, list_elem_of_fmap, list_elem_of_singleton in Hin.
    destruct Hin as [(q & Heq & _) | Heq]; [congruence | discriminate].
Qed.

Lemma general_root_events_fix_relocations w root_closure cld_closure cb :
  cb ∈ code_blobs (roots w) →
  EvFixRelocations (cb_id cb) ∈ general_root_events w root_closure cld_closure.
Proof.
  intros Hin. unfold general_root_events, code_events.
  rewrite !elem_of_app, list_elem_of_bind. right; right.
  exists cb. split; [|done].
  unfold do_code_blob. cbn. rewrite elem_of_app, list_elem_of_singleton. by right.
Qed.

(** C2: in every run of [young_process_roots] the general root enumeration
    (thread, class-loader-data and compiled-code roots, each code blob with
    its relocation fix-up requested) is complete before the old-generation
    visitor is applied; what follows it in the trace is the old-generation
    visitor applied to the recorded old-to-young entries of the old
    generation, one visit per entry and nothing else.  The general part is
    what [process_roots] alone produces and does not depend on the
    old-generation visitor; when the two visitors are different objects
    the old-generation visitor occurs in the trace at recorded entries
    only. *)
Theorem young_process_roots_order (w : World)
    (root_closure old_gen_closure : OopIterateClosure) (cld_closure : CLDClosure) :
  let w' := exec (young_process_roots root_closure old_gen_closure cld_closure) w in
  let general := general_root_events w root_closure cld_closure in
  let old_part := old_to_young_events w old_gen_closure in
  result (young_process_roots root_closure old_gen_closure cld_closure) w = Done tt ∧
  exec (process_roots SO_ScavengeCodeCache root_closure cld_closure cld_closure
          (mkCodeClosure root_closure FixRelocations false)) w = emit general w ∧
  w' = emit old_part (emit general w) ∧
  trace w' = trace w ++ general ++ old_part ∧
  old_part = EvDoOop old_gen_closure <$> tg_younger_refs (old_gen w) ∧
  (∀ cb, cb ∈ code_blobs (roots w) → EvFixRelocations (cb_id cb) ∈ general) ∧
  (∀ cl p, EvDoOop cl p ∈ general → cl = root_closure) ∧
  (old_gen_closure ≠ root_closure →
   ∀ p, EvDoOop old_gen_closure p ∈ general ++ old_part ↔
        p ∈ tg_younger_refs (old_gen w)).
Proof.
  intros w' general old_part.
  assert (Hgen : ∀ cl p, EvDoOop cl p ∈ general → cl = root_closure).
  { intros cl p. apply general_root_events_closure. }
  assert (Hw' : w' = emit old_part (emit general w)).
  { subst w'. unfold young_process_roots, younger_refs_iterate. step_monad.
    by rewrite process_roots_trace. }
  split; [|split; [|split; [|split; [|split; [|split; [|split]]]]]].
  - unfold young_process_roots. step_monad. by rewrite process_roots_trace.
  - unfold exec. by rewrite process_roots_trace.
  - exact Hw'.
  - rewrite Hw'. cbn. by rewrite <- app_assoc.
  - reflexivity.
  - intros cb. apply general_root_events_fix_relocations.
  - exact Hgen.
  - intros Hne p. rewrite elem_of_app. unfold old_part, old_to_young_events.
    rewrite list_elem_of_fmap. split.
    + intros [Hin | (q & Heq & Hq)]; [by apply Hgen in Hin|]. congruence.
    + intros Hin. right. by exists p.
Qed.

Lemma young_process_roots_order_witness :
  (20 ≠ 10)%nat ∧
  trace (exec (young_process_roots 10 20 30) example_world) =
    [EvDoOop 10 5000; EvDoOop 10 5008; EvDoCld 30 7; EvDoCld 30 8;
     EvDoOop 10 6000; EvDoOop 10 6008; EvFixRelocations 3; EvDoOop 20 1010].
Proof.
  split; [lia|].
  destruct (young_process_roots_order example_world 10 20 30) as (_ & _ & _ & Ht & _).
  rewrite Ht. reflexivity.
Defined.

(** ** Safepoint synchronization *)

(** C3: with string deduplication switched off, [safepoint_synchronize_begin]
    and [safepoint_synchronize_end] return at once and leave the world,
    trace included, as it was; with it switched on, the first is the
    suspend handshake [SuspendibleThreadSet::synchronize] and the second
    the release [SuspendibleThreadSet::desynchronize]: from an idle gate
    the worker is parked by the one and released by the other. *)
Theorem safepoint_synchronize_gate (w : World) :
  (UseStringDeduplication w = false →
     safepoint_synchronize_begin w = (Done tt, w) ∧
     safepoint_synchronize_end w = (Done tt, w)) ∧
  (UseStringDeduplication w = true →
     safepoint_synchronize_begin w = SuspendibleThreadSet_synchronize w ∧
     safepoint_synchronize_end w = SuspendibleThreadSet_desynchronize w) ∧
  (UseStringDeduplication w = true → sts w = Idle →
     let w1 := exec safepoint_synchronize_begin w in
     let w2 := exec safepoint_synchronize_end w1 in
     result safepoint_synchronize_begin w = Done tt ∧
     sts w1 = PausedWithWorkerParked ∧
     trace w1 = trace w ++ [EvSynchronize] ∧
     result safepoint_synchronize_end w1 = Done tt ∧
     sts w2 = Idle ∧
     trace w2 = trace w ++ [EvSynchronize; EvDesynchronize]).
Proof.
  unfold safepoint_synchronize_begin, safepoint_synchronize_end,
    SuspendibleThreadSet_synchronize, SuspendibleThreadSet_desynchronize.
  split; [|split].
  - intros Hf. step_monad. by rewrite Hf.
  - intros Hf. step_monad. by rewrite Hf.
  - intros Hf Hi. step_monad. rewrite Hf, Hi. cbn. rewrite Hf. cbn.
    by rewrite <- app_assoc.
Qed.

Lemma safepoint_synchronize_gate_witness :
  (UseStringDeduplication example_world_no_dedup = false ∧
   exec safepoint_synchronize_begin example_world_no_dedup = example_world_no_dedup) ∧
  (UseStringDeduplication example_world = true ∧ sts example_world = Idle ∧
   trace (exec safepoint_synchronize_end
            (exec safepoint_synchronize_begin example_world)) =
     [EvSynchronize; EvDesynchronize]).
Proof.
  split.
  - split; [reflexivity|].
    destruct (safepoint_synchronize_gate example_world_no_dedup) as (H & _).
    unfold exec. by rewrite (proj1 (H eq_refl)).
  - split; [reflexivity|]. split; [reflexivity|].
    destruct (safepoint_synchronize_gate example_world) as (_ & _ & H).
    apply (H eq_refl eq_refl).
Defined.

(** ** Archive space *)

Lemma mr_end_fits r : region_fits r → mr_end r = mr_start r + mr_word_size r.
Proof.
  intros (Hs & Hn & Hlt). unfold mr_end. apply Z.mod_small. lia.
Qed.

Lemma mr_contains_spec r r2 :
  mr_contains r r2 = true ↔ mr_start r ≤ mr_start r2 ∧ mr_end r2 ≤ mr_end r.
Proof.
  unfold mr_contains. rewrite andb_true_iff, !Z.leb_le. done.
Qed.

Lemma used_region_fits w :
  old_space_ok w → old_space_addressable w → region_fits (used_region (old_gen w)).
Proof.
  intros (Hb & Hbt & Hte) Ha.
  unfold region_fits, old_space_addressable, used_region, space_used_region in *.
  cbn. lia.
Qed.

(** Without wrap-around the check of the code is containment. *)
Lemma used_region_contains w r :
  old_space_ok w → old_space_addressable w → region_fits r →
  mr_contains (used_region (old_gen w)) r = true ↔ in_used_extent w r.
Proof.
  intros Hok Ha Hr.
  rewrite mr_contains_spec, (mr_end_fits r Hr),
    (mr_end_fits _ (used_region_fits w Hok Ha)).
  unfold in_used_extent, used_region, space_used_region. cbn. lia.
Qed.

Lemma complete_loaded_archive_space_run w r :
  complete_loaded_archive_space r w =
    if ASSERT w && negb (mr_contains (used_region (old_gen w)) r) then
      (Fatal "Archive space not contained in old gen", w)
    else TenuredGeneration_complete_loaded_archive_space r w.
Proof.
  unfold complete_loaded_archive_space, assert. step_monad.
  destruct (ASSERT w); [destruct (mr_contains _ _)|]; done.
Qed.

(** C4, as the code has it: in a build with assertions compiled in, for
    every region that does not wrap around the address space,
    [complete_loaded_archive_space] called with a region that is not fully
    within the old generation's used extent fails with the fatal error of
    its assertion and leaves the world, the old generation included, as it
    was.  In every build, called with such a region inside the used
    extent it returns and the old generation's allocator has recorded the
    region as permanently occupied.  In a product build there is no
    check: whatever the region, it is handed to the old generation. *)
Theorem complete_loaded_archive_space_checked (w : World) (archive_space : MemRegion) :
  old_space_ok w → old_space_addressable w → region_fits archive_space →
  (ASSERT w = true → ¬ in_used_extent w archive_space →
     complete_loaded_archive_space archive_space w =
       (Fatal "Archive space not contained in old gen", w)) ∧
  (in_used_extent w archive_space →
     let w' := exec (complete_loaded_archive_space archive_space) w in
     result (complete_loaded_archive_space archive_space) w = Done tt ∧
     w' = exec (TenuredGeneration_complete_loaded_archive_space archive_space) w ∧
     tg_archive_regions (old_gen w') =
       tg_archive_regions (old_gen w) ++ [archive_space] ∧
     tg_the_space (old_gen w') = tg_the_space (old_gen w) ∧
     trace w' = trace w ++ [EvOldCompleteArchive archive_space]) ∧
  (ASSERT w = false →
     complete_loaded_archive_space archive_space w =
       TenuredGeneration_complete_loaded_archive_space archive_space w).
Proof.
  intros Hok Ha Hr.
  pose proof (used_region_contains w archive_space Hok Ha Hr) as Hc.
  split; [|split].
  - intros Hb Hout. rewrite complete_loaded_archive_space_run, Hb.
    rewrite <- Hc in Hout. apply not_true_is_false in Hout. by rewrite Hout.
  - intros Hin. apply Hc in Hin. unfold exec, result.
    rewrite complete_loaded_archive_space_run, Hin, andb_false_r. done.
  - intros Hb. by rewrite complete_loaded_archive_space_run, Hb.
Qed.

Lemma complete_loaded_archive_space_checked_witness :
  old_space_ok example_world ∧ old_space_addressable example_world ∧
  (region_fits (mkMemRegion 1000 41) ∧ ASSERT example_world = true ∧
   ¬ in_used_extent example_world (mkMemRegion 1000 41) ∧
   complete_loaded_archive_space (mkMemRegion 1000 41) example_world =
     (Fatal "Archive space not contained in old gen", example_world)) ∧
  (region_fits (mkMemRegion 1000 40) ∧
   in_used_extent example_world (mkMemRegion 1000 40) ∧
   tg_archive_regions
     (old_gen (exec (complete_loaded_archive_space (mkMemRegion 1000 40))
                    example_world)) = [mkMemRegion 1000 40]).
Proof.
  assert (Hok : old_space_ok example_world).
  { unfold old_space_ok. cbn. lia. }
  assert (Ha : old_space_addressable example_world).
  { unfold old_space_addressable, address_space_words. cbn. lia. }
  assert (Hr1 : region_fits (mkMemRegion 1000 41)).
  { unfold region_fits, address_space_words. cbn. lia. }
  assert (Hr0 : region_fits (mkMemRegion 1000 40)).
  { unfold region_fits, address_space_words. cbn. lia. }
  assert (Hout : ¬ in_used_extent example_world (mkMemRegion 1000 41)).
  { unfold in_used_extent. cbn. lia. }
  assert (Hin : in_used_extent example_world (mkMemRegion 1000 40)).
  { unfold in_used_extent. cbn. lia. }
  split; [exact Hok|]. split; [exact Ha|]. split.
  - split; [exact Hr1|]. split; [reflexivity|]. split; [exact Hout|].
    destruct (complete_loaded_archive_space_checked example_world
                (mkMemRegion 1000 41) Hok Ha Hr1) as (H & _).
    exact (H eq_refl Hout).
  - split; [exact Hr0|]. split; [exact Hin|].
    destruct (complete_loaded_archive_space_checked example_world
                (mkMemRegion 1000 40) Hok Ha Hr0) as (_ & H & _).
    destruct (H Hin) as (_ & _ & Hrec & _). exact Hrec.
Defined.

(** The claim as it was stated fails twice.  In a product build a region
    that reaches one word past the used extent is handed to the old
    generation and recorded, with no error.  In a build with assertions,
    a region of [2^61] words that starts inside the used extent wraps
    around to its own start and passes the check. *)
Lemma complete_loaded_archive_space_unchecked :
  (ASSERT example_world_product = false ∧
   ¬ in_used_extent example_world_product (mkMemRegion 1000 41) ∧
   result (complete_loaded_archive_space (mkMemRegion 1000 41))
          example_world_product = Done tt ∧
   tg_archive_regions
     (old_gen (exec (complete_loaded_archive_space (mkMemRegion 1000 41))
                    example_world_product)) = [mkMemRegion 1000 41] ∧
   old_gen (exec (complete_loaded_archive_space (mkMemRegion 1000 41))
                 example_world_product) ≠ old_gen example_world_product) ∧
  (ASSERT example_world = true ∧
   ¬ in_used_extent example_world (mkMemRegion 1010 (2 ^ 61)) ∧
   result (complete_loaded_archive_space (mkMemRegion 1010 (2 ^ 61)))
          example_world = Done tt ∧
   tg_archive_regions
     (old_gen (exec (complete_loaded_archive_space (mkMemRegion 1010 (2 ^ 61)))
                    example_world)) = [mkMemRegion 1010 (2 ^ 61)]).
Proof.
  split.
  - split; [reflexivity|]. split; [unfold in_used_extent; cbn; lia|].
    split; [reflexivity|]. split; [reflexivity|]. discriminate.
  - split; [reflexivity|]. split; [unfold in_used_extent; cbn; lia|].
    split; reflexivity.
Qed.

(** C5: for every requested size, [allocate_loaded_archive_space] takes
    [Heap_lock] for the current thread, allocates from the old generation
    while it holds the lock, gives the lock back and returns what the old
    generation returned.  The young generation is not touched.  The result
    is the null address exactly when the old generation's contiguous free
    space is smaller than the request; otherwise it is the old allocation
    pointer, advanced by the request, inside the old generation's space.
    While another owner holds the lock the allocation does not happen. *)
Theorem allocate_loaded_archive_space_old_only (w : World) (word_size : Z) :
  old_space_ok w → 0 ≤ word_size →
  let t := current_thread w in
  let old_space := tg_the_space (old_gen w) in
  (Heap_lock w ≠ None →
     allocate_loaded_archive_space word_size w = (Blocked, w)) ∧
  (Heap_lock w = None →
     ∃ r w1 w2 w',
       allocate_loaded_archive_space word_size w = (Done r, w') ∧
       Mutex_lock w = (Done tt, w1) ∧ Heap_lock w1 = Some t ∧
       TenuredGeneration_allocate word_size false w1 = (Done r, w2) ∧
       Heap_lock w2 = Some t ∧
       Mutex_unlock w2 = (Done tt, w') ∧ Heap_lock w' = None ∧
       trace w' =
         trace w ++ [EvLock t; EvOldAllocate word_size false r; EvUnlock t] ∧
       (r = null_word ↔ space_free_words old_space < word_size) ∧
       young_gen w' = young_gen w ∧
       (r ≠ null_word →
          r = sp_top old_space ∧
          sp_top (tg_the_space (old_gen w')) = r + word_size ∧
          sp_bottom old_space ≤ r ∧ r + word_size ≤ sp_end old_space) ∧
       (r = null_word → old_gen w' = old_gen w)).
Proof.
  intros (Hb & Hbt & Hte) Hsz t old_space.
  split; intros Hl.
  - unfold allocate_loaded_archive_space, MutexLocker, Mutex_lock.
    step_monad. destruct (Heap_lock w); done.
  - pose (w1 := emit [EvLock t] (with_Heap_lock (Some t) w)).
    assert (Hlock : Mutex_lock w = (Done tt, w1)).
    { unfold Mutex_lock. step_monad. by rewrite Hl. }
    unfold null_word.
    destruct (word_size <=? space_free_words old_space) eqn:Hfit.
    + pose (w2 := emit [EvOldAllocate word_size false (sp_top old_space)]
                    (with_old (set_top (sp_top old_space + word_size)) w1)).
      assert (Halloc : TenuredGeneration_allocate word_size false w1 =
                       (Done (sp_top old_space), w2)).
      { unfold TenuredGeneration_allocate. step_monad.
        fold old_space. by rewrite Hfit. }
      apply Z.leb_le in Hfit. unfold space_free_words in *.
      exists (sp_top old_space), w1, w2,
        (emit [EvUnlock t] (with_Heap_lock None w2)).
      split.
      { unfold allocate_loaded_archive_space, MutexLocker.
        step_monad. rewrite Hlock. cbn. by rewrite Halloc. }
      do 2 (split; [done|]). split; [exact Halloc|].
      do 3 (split; [done|]).
      split; [cbn; by rewrite <- !app_assoc|].
      subst old_space. cbn. repeat split; try done; lia.
    + pose (w2 := emit [EvOldAllocate word_size false 0] w1).
      assert (Halloc : TenuredGeneration_allocate word_size false w1 =
                       (Done 0, w2)).
      { unfold TenuredGeneration_allocate. step_monad.
        fold old_space. by rewrite Hfit. }
      apply Z.leb_gt in Hfit. unfold space_free_words in *.
      exists 0, w1, w2, (emit [EvUnlock t] (with_Heap_lock None w2)).
      split.
      { unfold allocate_loaded_archive_space, MutexLocker.
        step_monad. rewrite Hlock. cbn. by rewrite Halloc. }
      do 2 (split; [done|]). split; [exact Halloc|].
      do 3 (split; [done|]).
      split; [cbn; by rewrite <- !app_assoc|].
      subst old_space. cbn. repeat split; try done; lia.
Qed.

Lemma allocate_loaded_archive_space_old_only_witness :
  old_space_ok example_world ∧ 0 ≤ 60 ∧ Heap_lock example_world = None ∧
  ∃ r, result (allocate_loaded_archive_space 60) example_world = Done r ∧
       r ≠ null_word.
Proof.
  assert (Hok : old_space_ok example_world).
  { unfold old_space_ok. cbn. lia. }
  split; [exact Hok|]. split; [lia|]. split; [reflexivity|].
  destruct (allocate_loaded_archive_space_old_only example_world 60 Hok)
    as (_ & H); [lia|].
  destruct (H eq_refl) as (r & w1 & w2 & w' & Hrun & _ & _ & _ & _ & _ & _ & _ & Hnull & _).
  exists r. split.
  - unfold result. by rewrite Hrun.
  - rewrite Hnull. unfold space_free_words. cbn. lia.
Defined.

(** ** Pinning *)

Lemma run_call_pause_excludes_critical c w :
  pause_excludes_critical w → pause_excludes_critical (run_call c w).
Proof.
  unfold pause_excludes_critical.
  destruct c; unfold run_call; try done.
  - unfold safepoint_synchronize_begin, SuspendibleThreadSet_synchronize.
    step_monad. destruct (UseStringDeduplication w); [destruct (sts w)|]; done.
  - unfold safepoint_synchronize_end, SuspendibleThreadSet_desynchronize.
    step_monad. destruct (UseStringDeduplication w); [destruct (sts w)|]; done.
  - unfold allocate_loaded_archive_space, MutexLocker, Mutex_lock, Mutex_unlock,
      TenuredGeneration_allocate.
    step_monad. destruct (Heap_lock w); [done|]. step_monad.
    destruct (_ <=? _); done.
  - unfold complete_loaded_archive_space, assert,
      TenuredGeneration_complete_loaded_archive_space.
    step_monad. destruct (ASSERT w); [destruct (mr_contains _ _)|]; done.
  - unfold pin_object, GCLocker_lock_critical. step_monad.
    intros H. destruct (gc_in_progress (gc_locker w)) eqn:Hgc; cbn; intros Hgc'.
    + by apply H.
    + congruence.
  - unfold unpin_object, GCLocker_unlock_critical. step_monad.
    intros H Hgc. specialize (H Hgc). lia.
  - unfold collection_pause_begin. step_monad.
    destruct (0 <? jni_lock_count (gc_locker w)) eqn:Hc; cbn; [done|].
    intros _ _. by apply Z.ltb_ge in Hc.
Qed.

Lemma run_calls_pause_excludes_critical cs : ∀ w,
  pause_excludes_critical w → pause_excludes_critical (run_calls cs w).
Proof.
  induction cs as [|c cs IH]; intros w Hw; [done|].
  cbn [run_calls]. by apply IH, run_call_pause_excludes_critical.
Qed.

(** C7: every [pin_object] that returns has added one to the global
    critical-section counter and every [unpin_object] takes one off; while
    the counter is positive a collection pause does not start; a pin
    requested while a collection is in progress does not return and
    changes nothing, and returns once the collection is over.  Over every
    sequence of calls, no collection is in progress while the counter is
    positive. *)
Theorem pin_blocks_collection (w : World) (thread : JavaThread) (obj : oop) :
  (gc_in_progress (gc_locker w) = false →
     result (pin_object thread obj) w = Done tt ∧
     jni_lock_count (gc_locker (exec (pin_object thread obj) w)) =
       jni_lock_count (gc_locker w) + 1) ∧
  (result (unpin_object thread obj) w = Done tt ∧
   jni_lock_count (gc_locker (exec (unpin_object thread obj) w)) =
     jni_lock_count (gc_locker w) - 1) ∧
  (0 < jni_lock_count (gc_locker w) →
     collection_pause_begin w = (Blocked, w)) ∧
  (jni_lock_count (gc_locker w) ≤ 0 →
     result collection_pause_begin w = Done tt ∧
     gc_in_progress (gc_locker (exec collection_pause_begin w)) = true) ∧
  (gc_in_progress (gc_locker w) = true →
     pin_object thread obj w = (Blocked, w) ∧
     result (pin_object thread obj) (exec collection_pause_end w) = Done tt) ∧
  (pause_excludes_critical w →
     ∀ cs, pause_excludes_critical (run_calls cs w)).
Proof.
  unfold pin_object, unpin_object, GCLocker_lock_critical,
    GCLocker_unlock_critical, collection_pause_begin, collection_pause_end.
  split; [|split; [|split; [|split; [|split]]]].
  - intros Hgc. step_monad. by rewrite Hgc.
  - done.
  - intros Hc. apply Z.ltb_lt in Hc. step_monad. by rewrite Hc.
  - intros Hc. apply Z.ltb_ge in Hc. step_monad. by rewrite Hc.
  - intros Hgc. step_monad. by rewrite Hgc.
  - intros Hw cs. by apply run_calls_pause_excludes_critical.
Qed.

Lemma pin_blocks_collection_witness :
  gc_in_progress (gc_locker example_world) = false ∧
  jni_lock_count (gc_locker (exec (pin_object 1 77) example_world)) = 1 ∧
  0 < jni_lock_count (gc_locker (exec (pin_object 1 77) example_world)) ∧
  collection_pause_begin (exec (pin_object 1 77) example_world) =
    (Blocked, exec (pin_object 1 77) example_world) ∧
  jni_lock_count
    (gc_locker (exec (unpin_object 1 77) (exec (pin_object 1 77) example_world))) ≤ 0 ∧
  result collection_pause_begin
    (exec (unpin_object 1 77) (exec (pin_object 1 77) example_world)) = Done tt.
Proof.
  split; [reflexivity|].
  destruct (pin_blocks_collection example_world 1 77) as (Hpin & _).
  destruct (Hpin eq_refl) as (_ & Hcount).
  split; [exact Hcount|].
  assert (Hpos : 0 < jni_lock_count (gc_locker (exec (pin_object 1 77) example_world))).
  { rewrite Hcount. apply Z.ltb_lt. reflexivity. }
  split; [exact Hpos|].
  destruct (pin_blocks_collection (exec (pin_object 1 77) example_world) 1 77)
    as (_ & _ & Hblock & _).
  split; [exact (Hblock Hpos)|].
  assert (Hzero : jni_lock_count
    (gc_locker (exec (unpin_object 1 77) (exec (pin_object 1 77) example_world))) ≤ 0).
  { apply Z.leb_le. reflexivity. }
  split; [exact Hzero|].
  destruct (pin_blocks_collection
              (exec (unpin_object 1 77) (exec (pin_object 1 77) example_world)) 1 77)
    as (_ & _ & _ & Hstart & _).
  exact (proj1 (Hstart Hzero)).
Defined.

(** C9: [pin_object] and [unpin_object] do not look at their object: for
    every thread and any two objects the two calls are the same state
    transformer, the critical-section entry or exit of the thread. *)
Theorem pin_object_ignores_object (thread : JavaThread) (o1 o2 : oop) :
  pin_object thread o1 = pin_object thread o2 ∧
  unpin_object thread o1 = unpin_object thread o2 ∧
  (∀ w, pin_object thread o1 w = GCLocker_lock_critical thread w ∧
        pin_object thread o2 w = GCLocker_lock_critical thread w) ∧
  (∀ w, unpin_object thread o1 w = GCLocker_unlock_critical thread w ∧
        unpin_object thread o2 w = GCLocker_unlock_critical thread w).
Proof. done. Qed.

(** ** Further properties of the member functions *)

Lemma run_call_keeps c w :
  cxx_next (run_call c w) = cxx_next w ∧
  roots (run_call c w) = roots w ∧
  UseStringDeduplication (run_call c w) = UseStringDeduplication w ∧
  current_thread (run_call c w) = current_thread w ∧
  Heap_lock (run_call c w) = Heap_lock w.
Proof.
  destruct c; unfold run_call; try done.
  - unfold safepoint_synchronize_begin, SuspendibleThreadSet_synchronize.
    step_monad. destruct (UseStringDeduplication w) eqn:Hf; [destruct (sts w)|]; by cbn.
  - unfold safepoint_synchronize_end, SuspendibleThreadSet_desynchronize.
    step_monad. destruct (UseStringDeduplication w) eqn:Hf; [destruct (sts w)|]; by cbn.
  - unfold allocate_loaded_archive_space, MutexLocker, Mutex_lock, Mutex_unlock,
      TenuredGeneration_allocate.
    step_monad. destruct (Heap_lock w) eqn:Hl; [by cbn|]. step_monad.
    destruct (_ <=? _); by cbn.
  - unfold complete_loaded_archive_space, assert,
      TenuredGeneration_complete_loaded_archive_space.
    step_monad. destruct (ASSERT w); [destruct (mr_contains _ _)|]; done.
  - unfold pin_object, GCLocker_lock_critical. step_monad.
    destruct (gc_in_progress _); done.
  - unfold collection_pause_begin. step_monad. destruct (0 <? _); done.
Qed.

Lemma initialize_serviceability_appends w gy go :
  cxx_managers w !! _young_manager (heap w) = Some gy →
  cxx_managers w !! _old_manager (heap w) = Some go →
  _young_manager (heap w) ≠ _old_manager (heap w) →
  let e := cxx_next w in
  let s := N.succ e in
  let o := N.succ s in
  let w' := exec initialize_serviceability w in
  result initialize_serviceability w = Done tt ∧
  heap w' = mkSerialHeap (_young_manager (heap w)) (_old_manager (heap w)) e s o ∧
  cxx_next w' = N.succ o ∧
  cxx_managers w' =
    <[_old_manager (heap w) :=
        mkManager (mgr_name go) (mgr_gc_end_message go) (mgr_pools go ++ [e; s; o])]>
    (<[_young_manager (heap w) :=
        mkManager (mgr_name gy) (mgr_gc_end_message gy) (mgr_pools gy ++ [e; s])]>
     (cxx_managers w)) ∧
  cxx_pools w' =
    <[o := GenerationPool_ctor (old_gen w) "Tenured Gen" true]>
    (<[s := SurvivorContiguousSpacePool_ctor "Survivor Space"
              (dn_max_survivor_size (young_gen w)) false]>
     (<[e := ContiguousSpacePool_ctor young_eden "Eden Space"
               (dn_max_eden_size (young_gen w)) false]> (cxx_pools w))) ∧
  young_gen w' =
    mkDefNew (dn_eden (young_gen w)) (dn_from (young_gen w)) (dn_to (young_gen w))
      (dn_max_eden_size (young_gen w)) (dn_max_survivor_size (young_gen w))
      (_young_manager (heap w)) ∧
  old_gen w' =
    mkTenured (tg_the_space (old_gen w)) (tg_max_capacity (old_gen w))
      (tg_archive_regions (old_gen w)) (tg_ref_slots (old_gen w))
      (tg_younger_refs (old_gen w)) (_old_manager (heap w)) ∧
  trace w' = trace w ∧ Heap_lock w' = Heap_lock w ∧ sts w' = sts w ∧
  gc_locker w' = gc_locker w.
Proof.
  intros Ey Eo Hne e s o w'. subst w'.
  unfold initialize_serviceability, new_pool, add_pool,
    young_set_gc_manager, old_set_gc_manager.
  step_monad.
  repeat (first [ rewrite Ey | rewrite Eo | rewrite lookup_insert_eq
                | rewrite lookup_insert_ne by done ]; step_monad).
  rewrite !insert_insert_eq, <- !app_assoc. done.
Qed.

Lemma allocate_loaded_archive_space_run w n :
  Heap_lock w = None →
  allocate_loaded_archive_space n w =
    let t := current_thread w in
    let sp := tg_the_space (old_gen w) in
    if n <=? space_free_words sp then
      (Done (sp_top sp),
       emit [EvLock t; EvOldAllocate n false (sp_top sp); EvUnlock t]
            (with_old (set_top (sp_top sp + n)) w))
    else
      (Done null_word,
       emit [EvLock t; EvOldAllocate n false null_word; EvUnlock t] w).
Proof.
  intros Hl. destruct w. cbn in Hl. subst.
  unfold allocate_loaded_archive_space, MutexLocker, Mutex_lock, Mutex_unlock,
    TenuredGeneration_allocate.
  step_monad. destruct (_ <=? _); cbn; unfold emit, with_old, with_Heap_lock; cbn;
    by rewrite <- !app_assoc.
Qed.

Lemma allocate_loaded_archive_space_blocked w n t :
  Heap_lock w = Some t → allocate_loaded_archive_space n w = (Blocked, w).
Proof.
  intros Hl.
  unfold allocate_loaded_archive_space, MutexLocker, Mutex_lock.
  step_monad. by rewrite Hl.
Qed.


Lemma run_calls_keeps cs : ∀ w,
  cxx_next (run_calls cs w) = cxx_next w ∧
  roots (run_calls cs w) = roots w ∧
  UseStringDeduplication (run_calls cs w) = UseStringDeduplication w ∧
  current_thread (run_calls cs w) = current_thread w ∧
  Heap_lock (run_calls cs w) = Heap_lock w.
Proof.
  induction cs as [|c cs IH]; intros w; [done|].
  cbn [run_calls]. destruct (IH (run_call c w)) as (-> & -> & -> & -> & ->).
  apply run_call_keeps.
Qed.

Lemma SerialHeap_ctor_heap w :
  heap (exec SerialHeap_ctor w) =
    mkSerialHeap (cxx_next w) (N.succ (cxx_next w)) nullptr nullptr nullptr ∧
  cxx_next (exec SerialHeap_ctor w) = N.succ (N.succ (cxx_next w)).
Proof. done. Qed.

Lemma managers_constructed_lookup w :
  managers_constructed w →
  ∃ gy go,
    cxx_managers w !! _young_manager (heap w) = Some gy ∧
    cxx_managers w !! _old_manager (heap w) = Some go ∧
    gy = mkManager "Copy" "end of minor GC" [] ∧
    go = mkManager "MarkSweepCompact" "end of major GC" [].
Proof.
  intros (Hy & Ho & Hpy & Hpo & _).
  unfold manager_info, manager_pools in *.
  destruct (cxx_managers w !! _young_manager (heap w)) as [[]|]; [|done].
  destruct (cxx_managers w !! _old_manager (heap w)) as [[]|]; [|done].
  cbn in *. eexists _, _. repeat split; congruence.
Qed.

(** The state of the reporting bridge after the deferred initialization
    and any later calls, with the addresses [new] handed out. *)
Lemma initialized_layout w cs1 cs2 :
  let w1 := constructed w cs1 in
  let w' := initialized w cs1 cs2 in
  let ym := cxx_next w in
  let om := N.succ ym in
  let e := N.succ om in
  let s := N.succ e in
  let o := N.succ s in
  heap w' = mkSerialHeap ym om e s o ∧
  cxx_next w' = N.succ o ∧
  cxx_managers w' !! ym = Some (mkManager "Copy" "end of minor GC" [e; s]) ∧
  cxx_managers w' !! om =
    Some (mkManager "MarkSweepCompact" "end of major GC" [e; s; o]) ∧
  cxx_pools w' !! e =
    Some (ContiguousSpacePool_ctor young_eden "Eden Space"
            (dn_max_eden_size (young_gen w1)) false) ∧
  cxx_pools w' !! s =
    Some (SurvivorContiguousSpacePool_ctor "Survivor Space"
            (dn_max_survivor_size (young_gen w1)) false) ∧
  cxx_pools w' !! o = Some (GenerationPool_ctor (old_gen w1) "Tenured Gen" true).
Proof.
  intros w1 w' ym om e s o. subst w' w1.
  unfold initialized, constructed.
  set (w1 := run_calls cs1 (exec SerialHeap_ctor w)).
  destruct (run_calls_frame cs1 (exec SerialHeap_ctor w)) as (_ & Hm1 & Hh1).
  destruct (run_calls_keeps cs1 (exec SerialHeap_ctor w)) as (Hn1 & _).
  destruct (SerialHeap_ctor_heap w) as (Hh0 & Hn0).
  fold w1 in Hm1, Hh1, Hn1. rewrite Hh0 in Hh1. rewrite Hn0 in Hn1.
  destruct (managers_constructed_lookup w1 (constructed_managers w cs1))
    as (gy & go & Ey & Eo & -> & ->).
  assert (Hne : _young_manager (heap w1) ≠ _old_manager (heap w1)).
  { rewrite Hh1. cbn. lia. }
  destruct (initialize_serviceability_appends w1 _ _ Ey Eo Hne)
    as (_ & Hh & Hn & Hm & Hp & _).
  destruct (run_calls_frame cs2 (exec initialize_serviceability w1))
    as (Hp2 & Hm2 & Hh2).
  destruct (run_calls_keeps cs2 (exec initialize_serviceability w1)) as (Hn2 & _).
  rewrite Hh2, Hn2, Hm2, Hp2, Hh, Hn, Hm, Hp, Hh1, Hn1. cbn.
  subst ym om e s o.
  split; [done|]. split; [done|].
  split; [by rewrite lookup_insert_ne, lookup_insert_eq by lia|].
  split; [by rewrite lookup_insert_eq|].
  split; [by rewrite !lookup_insert_ne, lookup_insert_eq by lia|].
  split; [by rewrite lookup_insert_ne, lookup_insert_eq by lia|].
  by rewrite lookup_insert_eq.
Qed.

(** X1: the deferred initialization hands each generation its manager:
    the young generation's is the young manager, named Copy, the old
    generation's is the old manager, named MarkSweepCompact.  It leaves
    the spaces, the archive regions, the recorded old-to-young entries,
    the locks, the suspendible thread set and the trace as they were. *)
Theorem initialize_serviceability_sets_gc_managers (w : World) (cs : list Call) :
  let w1 := constructed w cs in
  let w' := exec initialize_serviceability w1 in
  dn_gc_manager (young_gen w') = _young_manager (heap w') ∧
  tg_gc_manager (old_gen w') = _old_manager (heap w') ∧
  manager_info w' (dn_gc_manager (young_gen w')) = Some ("Copy", "end of minor GC") ∧
  manager_info w' (tg_gc_manager (old_gen w')) =
    Some ("MarkSweepCompact", "end of major GC") ∧
  dn_eden (young_gen w') = dn_eden (young_gen w1) ∧
  dn_from (young_gen w') = dn_from (young_gen w1) ∧
  dn_to (young_gen w') = dn_to (young_gen w1) ∧
  tg_the_space (old_gen w') = tg_the_space (old_gen w1) ∧
  tg_archive_regions (old_gen w') = tg_archive_regions (old_gen w1) ∧
  tg_younger_refs (old_gen w') = tg_younger_refs (old_gen w1) ∧
  trace w' = trace w1 ∧ Heap_lock w' = Heap_lock w1 ∧
  sts w' = sts w1 ∧ gc_locker w' = gc_locker w1.
Proof.
  intros w1 w'.
  pose proof (constructed_managers w cs) as Hc. fold w1 in Hc.
  destruct (managers_constructed_lookup w1 Hc) as (gy & go & Ey & Eo & -> & ->).
  destruct Hc as (_ & _ & _ & _ & Hne).
  destruct (initialize_serviceability_appends w1 _ _ Ey Eo Hne)
    as (_ & Hh & _ & Hm & _ & Hy & Ho & Ht & Hl & Hs & Hg).
  fold w' in Hh, Hm, Hy, Ho, Ht, Hl, Hs, Hg.
  unfold manager_info. rewrite Hy, Ho, Hh, Hm. cbn.
  rewrite lookup_insert_ne, !lookup_insert_eq by done. done.
Qed.

(** X2: between the constructor and the deferred initialization, whatever
    is called, [memory_pools()] returns three null pointers, while
    [memory_managers()] already returns the two managers, two different
    objects at the addresses [new] handed out, neither owning a pool. *)
Theorem memory_pools_null_before_initialization (w : World) (cs : list Call) :
  let w1 := constructed w cs in
  result memory_pools w1 = Done [nullptr; nullptr; nullptr] ∧
  result memory_managers w1 = Done [cxx_next w; N.succ (cxx_next w)] ∧
  cxx_next w ≠ N.succ (cxx_next w) ∧
  manager_pools w1 (cxx_next w) = [] ∧
  manager_pools w1 (N.succ (cxx_next w)) = [] ∧
  cxx_pools w1 = cxx_pools w.
Proof.
  intros w1.
  destruct (run_calls_frame cs (exec SerialHeap_ctor w)) as (Hp & Hm & Hh).
  destruct (SerialHeap_ctor_heap w) as (Hh0 & _).
  pose proof (constructed_managers w cs) as (_ & _ & Hpy & Hpo & _).
  fold (constructed w cs) in Hp, Hm, Hh. fold w1 in Hp, Hm, Hh, Hpy, Hpo.
  rewrite Hh0 in Hh. rewrite Hh in Hpy, Hpo. cbn in Hpy, Hpo.
  unfold memory_pools, memory_managers, append. step_monad. rewrite Hh. cbn.
  repeat split; try done. lia.
Qed.

(** X3: the pool objects are the ones built by the deferred
    initialization, from the generations as they were at that moment: the
    eden pool over [young->eden()] named Eden Space with the young
    generation's maximum eden size, the survivor pool named Survivor Space
    with its maximum survivor size, the tenured pool named Tenured Gen.
    No later call, and no later change of the generations, alters them:
    the maximum sizes stay the ones passed at initialization. *)
Theorem pools_built_at_initialization (w : World) (cs1 cs2 : list Call) :
  let w1 := constructed w cs1 in
  let w' := initialized w cs1 cs2 in
  cxx_pools w' !! _eden_pool (heap w') =
    Some (ContiguousSpacePool_ctor young_eden "Eden Space"
            (dn_max_eden_size (young_gen w1)) false) ∧
  cxx_pools w' !! _survivor_pool (heap w') =
    Some (SurvivorContiguousSpacePool_ctor "Survivor Space"
            (dn_max_survivor_size (young_gen w1)) false) ∧
  cxx_pools w' !! _old_pool (heap w') =
    Some (GenerationPool_ctor (old_gen w1) "Tenured Gen" true) ∧
  (λ a, pool_name <$> cxx_pools w' !! a) <$>
    [_eden_pool (heap w'); _survivor_pool (heap w'); _old_pool (heap w')] =
    [Some "Eden Space"; Some "Survivor Space"; Some "Tenured Gen"] ∧
  max_size <$> cxx_pools w' !! _eden_pool (heap w') =
    Some (dn_max_eden_size (young_gen w1)) ∧
  max_size <$> cxx_pools w' !! _survivor_pool (heap w') =
    Some (dn_max_survivor_size (young_gen w1)).
Proof.
  intros w1 w'.
  destruct (initialized_layout w cs1 cs2) as (Hh & _ & _ & _ & He & Hs & Ho).
  fold w1 in He, Hs, Ho. fold w' in Hh, He, Hs, Ho.
  rewrite Hh. cbn. rewrite He, Hs, Ho. done.
Qed.

(** X4: the deferred initialization is not guarded against a second run.
    Run again, it builds three new pools and attaches them behind the
    first three: the young manager then lists four pools and the old
    manager six, all six different objects, and [memory_pools()] returns
    the three new ones only. *)
Theorem initialize_serviceability_twice (w : World) (cs1 cs2 : list Call) :
  let w1 := initialized w cs1 cs2 in
  let w2 := exec initialize_serviceability w1 in
  let h1 := heap w1 in
  let h2 := heap w2 in
  result initialize_serviceability w1 = Done tt ∧
  _young_manager h2 = _young_manager h1 ∧
  _old_manager h2 = _old_manager h1 ∧
  manager_pools w2 (_young_manager h2) =
    [_eden_pool h1; _survivor_pool h1; _eden_pool h2; _survivor_pool h2] ∧
  manager_pools w2 (_old_manager h2) =
    [_eden_pool h1; _survivor_pool h1; _old_pool h1;
     _eden_pool h2; _survivor_pool h2; _old_pool h2] ∧
  result memory_pools w2 = Done [_eden_pool h2; _survivor_pool h2; _old_pool h2] ∧
  NoDup [_eden_pool h1; _survivor_pool h1; _old_pool h1;
         _eden_pool h2; _survivor_pool h2; _old_pool h2] ∧
  cxx_pools w2 !! _eden_pool h1 = cxx_pools w1 !! _eden_pool h1 ∧
  cxx_pools w2 !! _survivor_pool h1 = cxx_pools w1 !! _survivor_pool h1 ∧
  cxx_pools w2 !! _old_pool h1 = cxx_pools w1 !! _old_pool h1.
Proof.
  intros w1 w2 h1 h2.
  destruct (initialized_layout w cs1 cs2) as (Hh & Hn & Ey & Eo & _).
  fold w1 in Hh, Hn, Ey, Eo. clearbody w1.
  assert (Hne : _young_manager (heap w1) ≠ _old_manager (heap w1)).
  { rewrite Hh. cbn. lia. }
  assert (Ey' : cxx_managers w1 !! _young_manager (heap w1) =
                Some (mkManager "Copy" "end of minor GC"
                        [_eden_pool (heap w1); _survivor_pool (heap w1)])).
  { by rewrite Hh. }
  assert (Eo' : cxx_managers w1 !! _old_manager (heap w1) =
                Some (mkManager "MarkSweepCompact" "end of major GC"
                        [_eden_pool (heap w1); _survivor_pool (heap w1);
                         _old_pool (heap w1)])).
  { by rewrite Hh. }
  destruct (initialize_serviceability_appends w1 _ _ Ey' Eo' Hne)
    as (Hr & Hh2 & _ & Hm2 & Hp2 & _).
  fold w2 in Hh2, Hm2, Hp2.
  subst h1 h2. clearbody w2.
  split; [exact Hr|].
  unfold manager_pools, memory_pools, append, result, gets, mbind, mret, M_bind,
    M_ret, bind, ret.
  rewrite Hm2, Hp2, Hh2, Hn. cbn.
  rewrite lookup_insert_ne, !lookup_insert_eq by done. cbn.
  rewrite Hh. cbn.
  do 5 (split; [reflexivity|]).
  split.
  { rewrite !NoDup_cons, !not_elem_of_cons.
    repeat split; try lia; try apply not_elem_of_nil. apply NoDup_nil_2. }
  by rewrite !lookup_insert_ne by lia.
Qed.

(** X5: a reservation and its commit fit together.  When
    [allocate_loaded_archive_space] returns a block, that block lies
    within the old generation's used extent, so
    [complete_loaded_archive_space] on it returns, in every build, and
    the region is recorded.  When the reservation returns null, a commit
    of the region at the null address fails the assertion in a build that
    has it, and in a product build is recorded like any other. *)
Theorem archive_reserve_then_commit (w : World) (word_size : Z) :
  old_space_ok w → old_space_addressable w → 0 ≤ word_size →
  Heap_lock w = None →
  let w' := exec (allocate_loaded_archive_space word_size) w in
  ∃ a, result (allocate_loaded_archive_space word_size) w = Done a ∧
    (a ≠ null_word →
       in_used_extent w' (mkMemRegion a word_size) ∧
       result (complete_loaded_archive_space (mkMemRegion a word_size)) w' =
         Done tt ∧
       tg_archive_regions
         (old_gen (exec (complete_loaded_archive_space (mkMemRegion a word_size)) w')) =
         tg_archive_regions (old_gen w) ++ [mkMemRegion a word_size]) ∧
    (a = null_word → ASSERT w = true →
       complete_loaded_archive_space (mkMemRegion a word_size) w' =
         (Fatal "Archive space not contained in old gen", w')) ∧
    (a = null_word → ASSERT w = false →
       result (complete_loaded_archive_space (mkMemRegion a word_size)) w' =
         Done tt ∧
       tg_archive_regions
         (old_gen (exec (complete_loaded_archive_space (mkMemRegion a word_size)) w')) =
         tg_archive_regions (old_gen w) ++ [mkMemRegion a word_size]).
Proof.
  intros Hok Ha Hsz Hl w'. pose proof Hok as (Hb & Hbt & Hte). subst w'.
  unfold exec, result. rewrite (allocate_loaded_archive_space_run w word_size Hl).
  cbn zeta. unfold space_free_words, null_word.
  destruct (word_size <=? _) eqn:Hfit; cbn [fst snd].
  - apply Z.leb_le in Hfit. eexists. split; [reflexivity|].
    split; [|split; intros; lia].
    intros _.
    set (w' := emit _ (with_old _ w)).
    set (r := mkMemRegion (sp_top (tg_the_space (old_gen w))) word_size).
    assert (Hok' : old_space_ok w').
    { unfold old_space_ok. cbn -[Z.add]. lia. }
    assert (Ha' : old_space_addressable w') by exact Ha.
    assert (Hr : region_fits r).
    { unfold region_fits, old_space_addressable in *. cbn. lia. }
    assert (Hin : in_used_extent w' r).
    { unfold in_used_extent. cbn -[Z.add]. lia. }
    split; [exact Hin|].
    rewrite complete_loaded_archive_space_run.
    apply (used_region_contains w' r Hok' Ha' Hr) in Hin.
    rewrite Hin, andb_false_r. done.
  - apply Z.leb_gt in Hfit. eexists. split; [reflexivity|]. split; [done|].
    set (w' := emit _ w).
    assert (Hout : mr_contains (used_region (old_gen w')) (mkMemRegion 0 word_size)
                   = false).
    { unfold mr_contains. apply andb_false_iff. left. apply Z.leb_gt. cbn. lia. }
    split; intros _ Hbuild; rewrite complete_loaded_archive_space_run;
      change (ASSERT w') with (ASSERT w); rewrite Hbuild, ?Hout; done.
Qed.

Lemma archive_reserve_then_commit_witness :
  old_space_ok example_world ∧ old_space_addressable example_world ∧ 0 ≤ 60 ∧
  Heap_lock example_world = None ∧
  ∃ a, result (allocate_loaded_archive_space 60) example_world = Done a ∧
       (a ≠ null_word →
        result (complete_loaded_archive_space (mkMemRegion a 60))
               (exec (allocate_loaded_archive_space 60) example_world) = Done tt).
Proof.
  assert (Hok : old_space_ok example_world).
  { unfold old_space_ok. cbn. lia. }
  assert (Ha : old_space_addressable example_world).
  { unfold old_space_addressable, address_space_words. cbn. lia. }
  split; [exact Hok|]. split; [exact Ha|]. split; [lia|]. split; [reflexivity|].
  destruct (archive_reserve_then_commit example_world 60 Hok Ha)
    as (a & Hres & Hc & _); [lia|reflexivity|].
  exists a. split; [exact Hres|]. intros Hnn. exact (proj1 (proj2 (Hc Hnn))).
Defined.

(** X6: two reservations in a row both proceed, the first having given
    the lock back.  When both fit, the second block starts where the
    first ends; when only the first fits, the second returns null and the
    first block stays reserved.  Either way the lock is free afterwards
    and the allocation pointer is still inside the old generation's
    space. *)
Theorem archive_reservations_adjacent (w : World) (n1 n2 : Z) :
  old_space_ok w → 0 ≤ n1 → 0 ≤ n2 → Heap_lock w = None →
  let sp := tg_the_space (old_gen w) in
  let w1 := exec (allocate_loaded_archive_space n1) w in
  let w2 := exec (allocate_loaded_archive_space n2) w1 in
  (n1 + n2 ≤ space_free_words sp →
     result (allocate_loaded_archive_space n1) w = Done (sp_top sp) ∧
     result (allocate_loaded_archive_space n2) w1 = Done (sp_top sp + n1) ∧
     sp_top (tg_the_space (old_gen w2)) = sp_top sp + n1 + n2) ∧
  (n1 ≤ space_free_words sp → space_free_words sp < n1 + n2 →
     result (allocate_loaded_archive_space n1) w = Done (sp_top sp) ∧
     result (allocate_loaded_archive_space n2) w1 = Done null_word ∧
     sp_top (tg_the_space (old_gen w2)) = sp_top sp + n1) ∧
  Heap_lock w2 = None ∧ old_space_ok w2.
Proof.
  intros (Hb & Hbt & Hte) H1 H2 Hl sp w1 w2.
  assert (Hl1 : Heap_lock w1 = None).
  { subst w1. unfold exec. rewrite (allocate_loaded_archive_space_run w n1 Hl).
    cbn zeta. by destruct (n1 <=? _). }
  subst w2. unfold exec, result in *.
  rewrite (allocate_loaded_archive_space_run w1 n2 Hl1).
  subst w1. rewrite (allocate_loaded_archive_space_run w n1 Hl).
  cbn zeta. fold sp. unfold old_space_ok, space_free_words in *. fold sp in Hb, Hbt, Hte.
  destruct (n1 <=? sp_end sp - sp_top sp) eqn:Hf1; cbn;
    [apply Z.leb_le in Hf1 | apply Z.leb_gt in Hf1]; fold sp;
    destruct (n2 <=? _) eqn:Hf2; cbn;
    [apply Z.leb_le in Hf2 | apply Z.leb_gt in Hf2
    |apply Z.leb_le in Hf2 | apply Z.leb_gt in Hf2]; fold sp;
    repeat split; intros; try done; try lia.
Qed.

Lemma archive_reservations_adjacent_witness :
  old_space_ok example_world ∧ 0 ≤ 25 ∧ 0 ≤ 35 ∧ Heap_lock example_world = None ∧
  25 + 35 ≤ space_free_words (tg_the_space (old_gen example_world)) ∧
  result (allocate_loaded_archive_space 35)
         (exec (allocate_loaded_archive_space 25) example_world) = Done 1065.
Proof.
  assert (Hok : old_space_ok example_world).
  { unfold old_space_ok. cbn. lia. }
  assert (Hfit : 25 + 35 ≤ space_free_words (tg_the_space (old_gen example_world))).
  { apply Z.leb_le. reflexivity. }
  split; [exact Hok|]. split; [lia|]. split; [lia|]. split; [reflexivity|].
  split; [exact Hfit|].
  destruct (archive_reservations_adjacent example_world 25 35 Hok) as (H & _);
    [lia|lia|reflexivity|].
  exact (proj1 (proj2 (H Hfit))).
Defined.

Lemma run_call_spaces c w :
  member_call c → old_space_ok w →
  old_space_ok (run_call c w) ∧
  sp_bottom (tg_the_space (old_gen (run_call c w))) =
    sp_bottom (tg_the_space (old_gen w)) ∧
  sp_end (tg_the_space (old_gen (run_call c w))) =
    sp_end (tg_the_space (old_gen w)) ∧
  sp_top (tg_the_space (old_gen w)) ≤
    sp_top (tg_the_space (old_gen (run_call c w))) ∧
  young_gen (run_call c w) = young_gen w.
Proof.
  intros Hc Hok. pose proof Hok as (Hb & Hbt & Hte).
  assert (Hsame : ∀ w', old_gen w' = old_gen w → young_gen w' = young_gen w →
            old_space_ok w' ∧
            sp_bottom (tg_the_space (old_gen w')) = sp_bottom (tg_the_space (old_gen w)) ∧
            sp_end (tg_the_space (old_gen w')) = sp_end (tg_the_space (old_gen w)) ∧
            sp_top (tg_the_space (old_gen w)) ≤ sp_top (tg_the_space (old_gen w')) ∧
            young_gen w' = young_gen w).
  { intros w' Ho Hy. unfold old_space_ok. rewrite Ho, Hy. repeat split; try done; lia. }
  destruct c; unfold run_call; cbn in Hc; try done; try by apply Hsame.
  - apply Hsame;
      unfold safepoint_synchronize_begin, SuspendibleThreadSet_synchronize;
      step_monad; destruct (UseStringDeduplication w); try destruct (sts w); by cbn.
  - apply Hsame;
      unfold safepoint_synchronize_end, SuspendibleThreadSet_desynchronize;
      step_monad; destruct (UseStringDeduplication w); try destruct (sts w); by cbn.
  - destruct (Heap_lock w) as [t|] eqn:Hl.
    + unfold exec. rewrite (allocate_loaded_archive_space_blocked w word_size t Hl).
      by apply Hsame.
    + unfold exec. rewrite (allocate_loaded_archive_space_run w word_size Hl).
      cbn zeta. unfold space_free_words.
      destruct (word_size <=? _) eqn:Hfit; [|by apply Hsame].
      apply Z.leb_le in Hfit. unfold old_space_ok. cbn -[Z.add Z.sub].
      repeat split; try done; lia.
  - unfold exec. rewrite complete_loaded_archive_space_run.
    destruct (ASSERT w && negb _); [by apply Hsame|].
    unfold old_space_ok. cbn -[Z.add Z.sub]. repeat split; try done; lia.
  - apply Hsame; unfold pin_object, GCLocker_lock_critical; step_monad;
      destruct (gc_in_progress _); by cbn.
Qed.

(** X7: the member functions that run no visitor never move the old
    generation's allocation pointer out of its space or backwards, and do
    not touch the young generation: over every sequence of calls of
    [memory_managers], [memory_pools], [safepoint_synchronize_begin],
    [safepoint_synchronize_end], [allocate_loaded_archive_space],
    [complete_loaded_archive_space], [pin_object] and [unpin_object],
    with sizes a [size_t] can hold, the old space keeps its bottom and its
    end, its allocation pointer stays between them and never decreases,
    and the young generation is as it was.  The root scan, whose visitors
    move objects, is not among the calls. *)
Theorem member_calls_keep_spaces (w : World) (cs : list Call) :
  old_space_ok w → Forall member_call cs →
  let w' := run_calls cs w in
  old_space_ok w' ∧
  sp_bottom (tg_the_space (old_gen w')) = sp_bottom (tg_the_space (old_gen w)) ∧
  sp_end (tg_the_space (old_gen w')) = sp_end (tg_the_space (old_gen w)) ∧
  sp_top (tg_the_space (old_gen w)) ≤ sp_top (tg_the_space (old_gen w')) ∧
  young_gen w' = young_gen w.
Proof.
  intros Hok Hcs. revert w Hok.
  induction Hcs as [|c cs Hc _ IH]; intros w Hok; cbn.
  - unfold old_space_ok in *. repeat split; try done; lia.
  - destruct (run_call_spaces c w Hc Hok) as (Hok1 & Hb1 & He1 & Ht1 & Hy1).
    destruct (IH _ Hok1) as (Hok2 & Hb2 & He2 & Ht2 & Hy2).
    split; [exact Hok2|]. rewrite Hb2, He2, Hy2. repeat split; try done. lia.
Qed.

Lemma member_calls_keep_spaces_witness :
  old_space_ok example_world ∧
  Forall member_call
    [Call_allocate_loaded_archive_space 50; Call_pin_object 1 77;
     Call_allocate_loaded_archive_space 50;
     Call_complete_loaded_archive_space (mkMemRegion 1040 50)] ∧
  old_space_ok
    (run_calls
       [Call_allocate_loaded_archive_space 50; Call_pin_object 1 77;
        Call_allocate_loaded_archive_space 50;
        Call_complete_loaded_archive_space (mkMemRegion 1040 50)] example_world).
Proof.
  assert (Hok : old_space_ok example_world).
  { unfold old_space_ok. cbn. lia. }
  assert (Hcs : Forall member_call
    [Call_allocate_loaded_archive_space 50; Call_pin_object 1 77;
     Call_allocate_loaded_archive_space 50;
     Call_complete_loaded_archive_space (mkMemRegion 1040 50)]).
  { repeat constructor; cbn; lia. }
  split; [exact Hok|]. split; [exact Hcs|].
  exact (proj1 (member_calls_keep_spaces example_world _ Hok Hcs)).
Defined.

(** X8: no sequence of calls leaves [Heap_lock] in another state than it
    found it: a free lock is free again after every call, and a lock held
    by some thread is neither released nor taken over. *)
Theorem calls_leave_Heap_lock (w : World) (cs : list Call) :
  Heap_lock (run_calls cs w) = Heap_lock w ∧
  current_thread (run_calls cs w) = current_thread w.
Proof.
  destruct (run_calls_keeps cs w) as (_ & _ & _ & Hc & Hl). done.
Qed.

(** X9: with string deduplication switched off, any sequence of
    [safepoint_synchronize_begin] and [safepoint_synchronize_end] calls,
    in any order and number, paired or not, leaves the world as it was. *)
Theorem safepoint_calls_noop_without_dedup (w : World) (cs : list Call) :
  UseStringDeduplication w = false → Forall safepoint_call cs →
  run_calls cs w = w.
Proof.
  intros Hf Hcs. induction Hcs as [|c cs Hc _ IH]; [done|].
  cbn [run_calls].
  assert (Hstep : run_call c w = w).
  { destruct Hc as [-> | ->]; unfold run_call, safepoint_synchronize_begin,
      safepoint_synchronize_end; step_monad; by rewrite Hf. }
  by rewrite Hstep.
Qed.

Lemma safepoint_calls_noop_without_dedup_witness :
  UseStringDeduplication example_world_no_dedup = false ∧
  Forall safepoint_call
    [Call_safepoint_synchronize_end; Call_safepoint_synchronize_begin;
     Call_safepoint_synchronize_begin] ∧
  run_calls
    [Call_safepoint_synchronize_end; Call_safepoint_synchronize_begin;
     Call_safepoint_synchronize_begin] example_world_no_dedup =
  example_world_no_dedup.
Proof.
  assert (Hcs : Forall safepoint_call
    [Call_safepoint_synchronize_end; Call_safepoint_synchronize_begin;
     Call_safepoint_synchronize_begin]).
  { rewrite !Forall_cons. unfold safepoint_call. repeat split; auto. }
  split; [reflexivity|]. split; [exact Hcs|].
  exact (safepoint_calls_noop_without_dedup example_world_no_dedup _ eq_refl Hcs).
Defined.
